(** * Giveaway draw: the participant parser and the draw state machine

    A shallow embedding of [src/components/GiveawayDraw.tsx] and the
    properties of its parser ([parseParticipants]), of its event handlers
    ([handleParticipantsSubmit], [drawWinner], [resetDraw], [clearAll]) and
    of the controls that invoke them.

    JavaScript strings are sequences of UTF-16 code units, JavaScript
    numbers are IEEE 754 doubles: both are modelled with integers, the
    rounding written out. *)

From Stdlib Require Import ZArith NArith Lia Bool List Ascii String.
From Stdlib Require Import DecimalString DecimalN DecimalPos DecimalFacts.
From stdpp Require Import base tactics option list numbers.

Import ListNotations.
Local Open Scope bool_scope.

(* ================================================================== *)
(** * Part I: definitions *)
(* ================================================================== *)

(** ** JavaScript strings *)

Module JSString.

(** A UTF-16 code unit. *)
Definition char := N.
Definition jsstring := list char.

(** A string literal of the source, for Basic Latin text. *)
Definition lit (s : string) : jsstring :=
  List.map N_of_ascii (list_ascii_of_string s).

Definition hyphen : char := 45%N.
Definition newline : char := 10%N.

(** [\d] *)
Definition is_digit (c : char) : bool := ((48 <=? c) && (c <=? 57))%N.

(** LineTerminator: LF, CR, LS, PS. The regular expression's [.] is every
    code unit but these. *)
Definition is_line_terminator (c : char) : bool :=
  ((c =? 10) || (c =? 13) || (c =? 0x2028) || (c =? 0x2029))%N.

Definition is_dot (c : char) : bool := negb (is_line_terminator c).

(** WhiteSpace and LineTerminator: what [String.prototype.trim] strips and
    what [\s] matches (TAB, VT, FF, SP, NBSP, ZWNBSP, the Space_Separator
    category, and the line terminators). *)
Definition is_space (c : char) : bool :=
  ((c =? 9) || (c =? 11) || (c =? 12) || (c =? 32) || (c =? 160)
   || (c =? 0xFEFF) || (c =? 0x1680) || ((0x2000 <=? c) && (c <=? 0x200A))
   || (c =? 0x202F) || (c =? 0x205F) || (c =? 0x3000)
   || is_line_terminator c)%N.

Fixpoint dropWhile (p : char -> bool) (s : jsstring) : jsstring :=
  match s with
  | [] => []
  | c :: s' => if p c then dropWhile p s' else s
  end.

Fixpoint takeWhile (p : char -> bool) (s : jsstring) : jsstring :=
  match s with
  | [] => []
  | c :: s' => if p c then c :: takeWhile p s' else []
  end.

Definition trimStart (s : jsstring) : jsstring := dropWhile is_space s.
Definition trimEnd (s : jsstring) : jsstring :=
  rev (dropWhile is_space (rev s)).

(** [s.trim()] *)
Definition trim (s : jsstring) : jsstring := trimEnd (trimStart s).

(** [s.split(sep)] for a one-unit separator: never the empty array. *)
Fixpoint split (sep : char) (s : jsstring) : list jsstring :=
  match s with
  | [] => [[]]
  | c :: s' =>
      if (c =? sep)%N then [] :: split sep s'
      else match split sep s' with
           | l :: ls => (c :: l) :: ls
           | [] => [[c]]
           end
  end.

(** Truthiness of a string: non-empty. *)
Definition truthy (s : jsstring) : bool :=
  match s with [] => false | _ :: _ => true end.

(** [s.replace(/\s+/g, '-')]: every maximal run of white space becomes one
    hyphen. [in_run] says that the previous unit was white space. *)
Fixpoint replace_runs (in_run : bool) (s : jsstring) : jsstring :=
  match s with
  | [] => []
  | c :: s' =>
      if is_space c
      then (if in_run then replace_runs true s'
            else hyphen :: replace_runs true s')
      else c :: replace_runs false s'
  end.

Definition replace_spaces (s : jsstring) : jsstring := replace_runs false s.

(** [a.join(sep)] on strings. *)
Fixpoint join (sep : jsstring) (l : list jsstring) : jsstring :=
  match l with
  | [] => []
  | [x] => x
  | x :: l' => x ++ sep ++ join sep l'
  end.

(** [String.prototype.toLowerCase] on Basic Latin text, where it maps A-Z
    to a-z and nothing else. *)
Definition toLowerCaseLatin (s : jsstring) : jsstring :=
  List.map (fun c => if ((65 <=? c) && (c <=? 90))%N then (c + 32)%N else c) s.

(** The trimmed, non-blank lines of a list of lines. *)
Definition content (lines : list jsstring) : list jsstring :=
  List.filter truthy (List.map trim lines).

End JSString.

(** ** Regular expressions with greedy, backtracking repetition

    The pieces of [/^(\d+)\s*-\s*(.+)$/]: each takes the rest of the input
    and a continuation, which receives what the piece matched and what is
    left; a repetition tries the longest match first and gives units back
    when the continuation fails. *)

Module Regex.
Import JSString.

Section Matcher.
Context {A : Type}.

(** [c*] for a class [p], greedy. *)
Fixpoint star (p : char -> bool) (s : jsstring)
    (k : jsstring -> jsstring -> option A) : option A :=
  match s with
  | [] => k [] []
  | c :: s' =>
      if p c then
        match star p s' (fun m rest => k (c :: m) rest) with
        | Some r => Some r
        | None => k [] s
        end
      else k [] s
  end.

(** [c+] *)
Definition plus (p : char -> bool) (s : jsstring)
    (k : jsstring -> jsstring -> option A) : option A :=
  match s with
  | [] => None
  | c :: s' => if p c then star p s' (fun m rest => k (c :: m) rest) else None
  end.

(** One literal unit. *)
Definition literal (c0 : char) (s : jsstring) (k : jsstring -> option A)
    : option A :=
  match s with
  | c :: s' => if (c =? c0)%N then k s' else None
  | [] => None
  end.

(** [$] without the [m] flag: the end of the input. *)
Definition eoi (s : jsstring) (r : A) : option A :=
  match s with [] => Some r | _ :: _ => None end.
End Matcher.

(** [s.match(/^(\d+)\s*-\s*(.+)$/)]: the two capture groups. *)
Definition match_line (s : jsstring) : option (jsstring * jsstring) :=
  plus is_digit s (fun numberStr s1 =>
  star is_space s1 (fun _ s2 =>
  literal hyphen s2 (fun s3 =>
  star is_space s3 (fun _ s4 =>
  plus is_dot s4 (fun name s5 =>
  eoi s5 (numberStr, name)))))).

(** The shape of a string: digits, white space, a hyphen, white space, and
    a non-empty rest without line terminator. *)
Definition shape (s ds ws1 ws2 rest : jsstring) : Prop :=
  s = ds ++ ws1 ++ hyphen :: ws2 ++ rest
  /\ ds <> [] /\ forallb is_digit ds = true
  /\ forallb is_space ws1 = true /\ forallb is_space ws2 = true
  /\ rest <> [] /\ forallb is_dot rest = true.

End Regex.

(** ** JavaScript numbers

    A number is an IEEE 754 double. The parser only meets integers, so a
    finite double is kept as the integer it denotes ([Fin 0] stands for both
    zeros, which [===], [Set] and [String] do not tell apart). *)

Module JSNumber.
Import JSString.
Local Open Scope Z_scope.

Inductive Number :=
| NaN
| PosInfinity
| NegInfinity
| Fin (z : Z).

Definition isNaN (x : Number) : bool :=
  match x with NaN => true | _ => false end.

(** [a === b] on numbers: NaN is not equal to itself. *)
Definition strict_equals (a b : Number) : bool :=
  match a, b with
  | PosInfinity, PosInfinity => true
  | NegInfinity, NegInfinity => true
  | Fin x, Fin y => x =? y
  | _, _ => false
  end.

(** SameValueZero, the equality of [Set]: NaN is equal to itself. *)
Definition same_value_zero (a b : Number) : bool :=
  match a, b with
  | NaN, NaN => true
  | _, _ => strict_equals a b
  end.

(** Round a positive integer to the nearest integer with a 53-bit
    significand, ties to the even significand. *)
Definition round_magnitude (a : Z) : Z :=
  let e := Z.log2 a - 52 in
  if e <=? 0 then a
  else
    let q := a / 2 ^ e in
    let r := a mod 2 ^ e in
    let half := 2 ^ (e - 1) in
    let q' := if (half <? r) || ((r =? half) && Z.odd q) then q + 1 else q in
    q' * 2 ^ e.

(** The number value of a mathematical integer: what is out of the range
    of doubles becomes an infinity. *)
Definition roundToDouble (z : Z) : Number :=
  let m := round_magnitude (Z.abs z) in
  if z =? 0 then Fin 0
  else if 2 ^ 1024 <=? m then (if 0 <? z then PosInfinity else NegInfinity)
  else Fin (Z.sgn z * m).

Definition digit_value (c : char) : Z := Z.of_N c - 48.

(** The mathematical integer of a string of decimal digits. *)
Definition digits_value (ds : jsstring) : Z :=
  fold_left (fun acc c => 10 * acc + digit_value c) ds 0.

(** [parseInt(s, 10)]: leading white space is skipped, a sign is read, then
    the longest prefix of decimal digits; no digit gives NaN. The value is
    the correctly rounded one, as the engines compute it (the standard would
    also let an implementation read the digits after the 20th as zeros). *)
Definition parseInt (s : jsstring) : Number :=
  let s := trimStart s in
  let '(sign, s) :=
    match s with
    | c :: s' =>
        if (c =? 45)%N then (-1, s')
        else if (c =? 43)%N then (1, s')
        else (1, s)
    | [] => (1, s)
    end in
  match takeWhile is_digit s with
  | [] => NaN
  | ds => roundToDouble (sign * digits_value ds)
  end.

(** The decimal numeral of a natural number, without leading zeros. *)
Definition decimal (z : Z) : jsstring :=
  lit (NilEmpty.string_of_uint (N.to_uint (Z.to_N z))).

Definition roundtrips (v z : Z) : bool :=
  match roundToDouble v with
  | Fin z' => z' =? z
  | _ => false
  end.

(** The multiples of [10^e] next to [z] that round to [z]; of two, the one
    closest to [z], and at equal distance the even multiple. *)
Definition candidate (z e : Z) : option Z :=
  let p := 10 ^ e in
  let lo := (z / p) * p in
  let hi := lo + p in
  match roundtrips lo z, roundtrips hi z with
  | true, true =>
      Some (if z - lo <? hi - z then lo
            else if hi - z <? z - lo then hi
            else if Z.even (z / p) then lo else hi)
  | true, false => Some lo
  | false, true => Some hi
  | false, false => None
  end.

(** The first [k] in the list, a number of significant digits, for which
    there is a candidate. [d] is the number of digits of [z]. *)
Fixpoint search (z d : Z) (ks : list Z) : Z :=
  match ks with
  | [] => z
  | k :: ks' =>
      match candidate z (Z.max 0 (d - k)) with
      | Some v => v
      | None => search z d ks'
      end
  end.

(** The integer with the fewest significant digits that rounds to the
    double [z], [z > 0] (17 digits always suffice). *)
Definition shortest (z : Z) : Z :=
  search z (Z.of_nat (length (decimal z))) (List.map Z.of_nat (seq 1 17)).

Definition stripZeros (ds : jsstring) : jsstring :=
  rev (dropWhile (fun c => (c =? 48)%N) (rev ds)).

(** Exponential notation for a numeral [ds] of [n] digits:
    [d.ddd] followed by [e+] and [n - 1]. *)
Definition exponential (ds : jsstring) : jsstring :=
  match stripZeros ds with
  | [] => ds
  | c :: rest =>
      c :: (match rest with [] => [] | _ :: _ => 46%N :: rest end)
         ++ lit "e+" ++ decimal (Z.of_nat (length ds) - 1)
  end.

Definition render (v : Z) : jsstring :=
  if v <? 10 ^ 21 then decimal v else exponential (decimal v).

(** [String(x)], as a template literal applies it, for an integral [x]:
    plain digits below 10^21, exponential notation from there on. *)
Definition numberToString (x : Number) : jsstring :=
  match x with
  | NaN => lit "NaN"
  | PosInfinity => lit "Infinity"
  | NegInfinity => lit "-Infinity"
  | Fin z =>
      if z =? 0 then lit "0"
      else if z <? 0 then hyphen :: render (shortest (- z))
      else render (shortest z)
  end.

(** The units of a number's string: digits, the point, [e] and [+]. *)
Definition is_numeral_unit (c : char) : bool :=
  (is_digit c || (c =? 46) || (c =? 101) || (c =? 43))%N.

(** Every unit but [e]. *)
Definition not_e (c : char) : bool := negb (c =? 101)%N.

(** The numbers that the parser can produce: the doubles that are natural
    numbers, and the positive infinity. *)
Definition natural_double (x : Number) : Prop :=
  match x with
  | Fin z => 0 <= z /\ roundToDouble z = Fin z
  | PosInfinity => True
  | _ => False
  end.

End JSNumber.

(** ** Array methods *)

Module JSArray.
Import JSNumber.

Section Filter.
Context {A : Type}.

(** [a.filter((x, index) => f(x, index))], the index counted from [i]. *)
Fixpoint filter_from (i : nat) (f : A -> nat -> bool) (a : list A) : list A :=
  match a with
  | [] => []
  | x :: a' =>
      if f x i then x :: filter_from (S i) f a' else filter_from (S i) f a'
  end.

Definition filter_indexed (f : A -> nat -> bool) (a : list A) : list A :=
  filter_from 0 f a.
End Filter.

(** [a.indexOf(x)] on numbers: the first index whose element is [=== x],
    or -1. *)
Fixpoint indexOf (a : list Number) (x : Number) : Z :=
  match a with
  | [] => -1
  | y :: a' =>
      if strict_equals y x then 0
      else let i := indexOf a' x in
           if (i =? -1)%Z then -1 else (i + 1)%Z
  end.

(** [[...new Set(a)]]: the distinct values in the order of their first
    occurrence. *)
Definition set_add (seen : list Number) (x : Number) : list Number :=
  if existsb (same_value_zero x) seen then seen else seen ++ [x].

Definition distinct (a : list Number) : list Number :=
  fold_left set_add a [].

End JSArray.

(** ** The component *)

Import JSString JSNumber JSArray.

Record Participant := {
  number : Number;
  name : jsstring;
  id : jsstring
}.

(** Milliseconds since the epoch. *)
Definition Date := Z.

(** [interface Winner extends Participant]: the fields of the participant
    ([...selectedParticipant]) and two more. *)
Record Winner := {
  selected :> Participant;
  drawnAt : Date;
  position : Z
}.

Record Toast := {
  title : jsstring;
  description : jsstring;
  destructive : bool
}.

(** The six [useState] cells. *)
Record State := {
  participantText : jsstring;
  participants : list Participant;
  originalParticipants : list Participant;
  winners : list Winner;
  currentWinner : option Winner;
  isDrawing : bool
}.

Definition initialState : State := {|
  participantText := [];
  participants := [];
  originalParticipants := [];
  winners := [];
  currentWinner := None;
  isDrawing := false
|}.

(** The callback that [drawWinner] hands to [setTimeout]: it closes over the
    [participants] and [winners] of the render in which the draw was started. *)
Record Closure := {
  seen_participants : list Participant;
  seen_winners : list Winner
}.

Inductive Effect :=
| toast (t : Toast)
| setTimeout (callback : Closure) (ms : Z).

(** The notifications. *)

Definition invalidFormatToast : Toast :=
  {| title := lit "Invalid Format";
     description := lit "Please enter participants in the format: number - name (e.g., 1 - John Doe)";
     destructive := true |}.

(** [[...new Set(duplicates)].join(', ')] after the colon. *)
Definition duplicateNumbersToast (values : list Number) : Toast :=
  {| title := lit "Duplicate Numbers";
     description :=
       lit "Found duplicate participant numbers: "
       ++ join (lit ", ") (List.map numberToString values);
     destructive := true |}.

Definition participantsLoadedToast (count : nat) : Toast :=
  {| title := lit "Participants Loaded";
     description :=
       lit "Successfully loaded "
       ++ numberToString (Fin (Z.of_nat count)) ++ lit " participants";
     destructive := false |}.

Definition noParticipantsToast : Toast :=
  {| title := lit "No Participants";
     description := lit "Please add participants before drawing a winner";
     destructive := true |}.

Definition winnerDrawnToast (winner : Winner) : Toast :=
  {| title := [0xD83C; 0xDF89]%N ++ lit " Winner Drawn!";
     description := name winner ++ lit " has been selected!";
     destructive := false |}.

Definition drawResetToast : Toast :=
  {| title := lit "Draw Reset";
     description := lit "All participants have been restored";
     destructive := false |}.

Section GiveawayDraw.

(** [String.prototype.toLowerCase]: the Unicode case tables are the
    runtime's. *)
Variable toLowerCase : jsstring -> jsstring.

(** The body of the [for] loop: [parsed.push] on a match. *)
Definition parse_line (parsed : list Participant) (line : jsstring)
    : list Participant :=
  match Regex.match_line (trim line) with
  | Some (numberStr, name) =>
      let number := parseInt numberStr in
      if negb (isNaN number) && truthy (trim name) then
        parsed ++ [ {| number := number;
                       name := trim name;
                       id := numberToString number ++ [hyphen]
                             ++ toLowerCase (replace_spaces (trim name)) |} ]
      else parsed
  | None => parsed
  end.

Definition parseParticipants (text : jsstring) : list Participant :=
  let lines :=
    List.filter (fun line => truthy (trim line)) (split newline (trim text)) in
  fold_left parse_line lines [].

(** [numbers.filter((num, index) => numbers.indexOf(num) !== index)] *)
Definition duplicates_of (numbers : list Number) : list Number :=
  filter_indexed
    (fun num index => negb (indexOf numbers num =? Z.of_nat index)%Z) numbers.

Definition handleParticipantsSubmit (s : State) : State * list Effect :=
  let parsed := parseParticipants (participantText s) in
  if (length parsed =? 0)%nat then (s, [toast invalidFormatToast])
  else
    let numbers := List.map number parsed in
    let duplicates := duplicates_of numbers in
    if (0 <? length duplicates)%nat then
      (s, [toast (duplicateNumbersToast (distinct duplicates))])
    else
      ({| participantText := participantText s;
          participants := parsed;
          originalParticipants := parsed;
          winners := [];
          currentWinner := None;
          isDrawing := isDrawing s |},
       [toast (participantsLoadedToast (length parsed))]).

End GiveawayDraw.

Definition drawWinner (s : State) : State * list Effect :=
  if (length (participants s) =? 0)%nat then (s, [toast noParticipantsToast])
  else
    ({| participantText := participantText s;
        participants := participants s;
        originalParticipants := originalParticipants s;
        winners := winners s;
        currentWinner := None;
        isDrawing := true |},
     [setTimeout {| seen_participants := participants s;
                    seen_winners := winners s |} 1500]).

(** The timeout callback. [randomIndex] stands for
    [Math.floor(Math.random() * participants.length)], which lies in
    [[0, participants.length)] since [Math.random() < 1]: outside that range
    there is no run to describe. [now] is [new Date()]. The two functional
    updates, [setWinners(prev => ...)] and [setParticipants(prev => ...)],
    act on the state at the time the callback runs. *)
Definition revealWinner (cl : Closure) (randomIndex : nat) (now : Date)
    (s : State) : option (State * list Effect) :=
  match seen_participants cl !! randomIndex with
  | None => None
  | Some selectedParticipant =>
      let winner := {| selected := selectedParticipant;
                       drawnAt := now;
                       position := Z.of_nat (length (seen_winners cl)) + 1 |} in
      Some ({| participantText := participantText s;
               participants :=
                 filter_indexed (fun _ index => negb (index =? randomIndex)%nat)
                                (participants s);
               originalParticipants := originalParticipants s;
               winners := winners s ++ [winner];
               currentWinner := Some winner;
               isDrawing := false |},
            [toast (winnerDrawnToast winner)])
  end.

Definition resetDraw (s : State) : State * list Effect :=
  ({| participantText := participantText s;
      participants := originalParticipants s;
      originalParticipants := originalParticipants s;
      winners := [];
      currentWinner := None;
      isDrawing := isDrawing s |},
   [toast drawResetToast]).

Definition clearAll (s : State) : State * list Effect :=
  ({| participantText := [];
      participants := [];
      originalParticipants := [];
      winners := [];
      currentWinner := None;
      isDrawing := isDrawing s |},
   []).

(** One draw from click to reveal, nothing happening in between: the callback
    runs on the state that [drawWinner] left. *)
Definition drawAndReveal (randomIndex : nat) (now : Date) (s : State)
    : option State :=
  match drawWinner s with
  | (s1, [setTimeout cl _]) =>
      match revealWinner cl randomIndex now s1 with
      | Some (s2, _) => Some s2
      | None => None
      end
  | _ => None
  end.

(** [setParticipantText(value)], the text area's [onChange]. *)
Definition withText (text : jsstring) (s : State) : State :=
  {| participantText := text;
     participants := participants s;
     originalParticipants := originalParticipants s;
     winners := winners s;
     currentWinner := currentWinner s;
     isDrawing := isDrawing s |}.

(** ** The rendered page

    The state, the timers that are pending and the notifications shown so
    far. A control acts only when it is rendered and not disabled. *)

Record Page := {
  state : State;
  timers : list Closure;
  toasts : list Toast
}.

Definition initialPage : Page :=
  {| state := initialState; timers := []; toasts := [] |}.

(** The effects of a handler: a notification is shown, a timer is set. *)
Fixpoint perform (effects : list Effect) (p : Page) : Page :=
  match effects with
  | [] => p
  | toast t :: effects' =>
      perform effects'
        {| state := state p; timers := timers p; toasts := toasts p ++ [t] |}
  | setTimeout cl _ :: effects' =>
      perform effects'
        {| state := state p; timers := timers p ++ [cl]; toasts := toasts p |}
  end.

(** A handler runs on the state of the page. *)
Definition handle (h : State -> State * list Effect) (p : Page) : Page :=
  let '(s, effects) := h (state p) in
  perform effects {| state := s; timers := timers p; toasts := toasts p |}.

(** What happens to the page: the user types in the text area or clicks a
    button, or the [n]-th pending timer fires. *)
Inductive Event :=
| TypeText (value : jsstring)
| ClickLoad
| ClickDraw
| ClickReset
| ClickClear
| TimerFires (n : nat) (randomIndex : nat) (now : Date).

(** The input card is rendered when [participants.length === 0], the draw
    section when [participants.length > 0]; each has a clear button. *)
Definition inputCardShown (s : State) : bool :=
  (length (participants s) =? 0)%nat.
Definition drawSectionShown (s : State) : bool :=
  (0 <? length (participants s))%nat.

(** The [disabled] attributes of the three buttons that have one. *)
Definition loadDisabled (s : State) : bool :=
  negb (truthy (trim (participantText s))).
Definition resetDisabled (s : State) : bool :=
  isDrawing s || (length (winners s) =? 0)%nat.
Definition drawDisabled (s : State) : bool :=
  isDrawing s || (length (participants s) =? 0)%nat.

Definition loadEnabled (s : State) : bool :=
  inputCardShown s && negb (loadDisabled s).
Definition resetEnabled (s : State) : bool :=
  drawSectionShown s && negb (resetDisabled s).
Definition drawEnabled (s : State) : bool :=
  drawSectionShown s && negb (drawDisabled s).

Section Page.
Variable toLowerCase : jsstring -> jsstring.

(** One event. A control that is not rendered or is disabled does nothing;
    a timer that fires leaves the pending ones and runs its callback. *)
Definition step (p : Page) (ev : Event) : Page :=
  let s := state p in
  match ev with
  | TypeText value =>
      if inputCardShown s then
        {| state := withText value s; timers := timers p; toasts := toasts p |}
      else p
  | ClickLoad =>
      if loadEnabled s then handle (handleParticipantsSubmit toLowerCase) p
      else p
  | ClickDraw => if drawEnabled s then handle drawWinner p else p
  | ClickReset => if resetEnabled s then handle resetDraw p else p
  | ClickClear => handle clearAll p
  | TimerFires n randomIndex now =>
      match timers p !! n with
      | None => p
      | Some cl =>
          match revealWinner cl randomIndex now s with
          | None => p
          | Some (s', effects) =>
              perform effects
                {| state := s'; timers := delete n (timers p);
                   toasts := toasts p |}
          end
      end
  end.

(** The events of a run, one after the other. *)
Definition run (p : Page) (evs : list Event) : Page := fold_left step evs p.

End Page.

(** ** The parser's contract

    What the specification says of a line, in its own words: the trimmed line
    is an integer (decimal digits), optional white space, a hyphen, optional
    white space and the rest of the line (no line terminator inside); the
    integer parses and the rest, trimmed, is not empty. *)

Definition line_entry (line integer remainder : jsstring) : Prop :=
  exists ws1 ws2,
    trim line = integer ++ ws1 ++ hyphen :: ws2 ++ remainder
    /\ integer <> []
    /\ forallb is_digit integer = true
    /\ forallb is_space ws1 = true
    /\ forallb is_space ws2 = true
    /\ forallb is_dot remainder = true
    /\ parseInt integer <> NaN
    /\ trim remainder <> [].

Section Contract.
Variable toLowerCase : jsstring -> jsstring.

(** The normalized name: white space runs to hyphens, then lower case. *)
Definition normalized (name : jsstring) : jsstring :=
  toLowerCase (replace_spaces name).

(** The record of a matching line, as the code builds it. *)
Definition entry (integer remainder : jsstring) : Participant :=
  {| number := parseInt integer;
     name := trim remainder;
     id := numberToString (parseInt integer) ++ [hyphen]
           ++ normalized (trim remainder) |}.

(** The record of a matching line with the integer taken as written: the
    number is the integer, the id starts with its decimal numeral. *)
Definition entry_as_written (integer remainder : jsstring) : Participant :=
  {| number := Fin (digits_value integer);
     name := trim remainder;
     id := decimal (digits_value integer) ++ [hyphen]
           ++ normalized (trim remainder) |}.

(** [collected mk lines ps]: [ps] are the records of the lines that match,
    in the order of the lines; the other lines leave nothing. *)
Inductive collected (mk : jsstring -> jsstring -> Participant)
    : list jsstring -> list Participant -> Prop :=
| collected_nil : collected mk [] []
| collected_match line lines ps integer remainder :
    line_entry line integer remainder ->
    collected mk lines ps ->
    collected mk (line :: lines) (mk integer remainder :: ps)
| collected_skip line lines ps :
    (forall integer remainder, ~ line_entry line integer remainder) ->
    collected mk lines ps ->
    collected mk (line :: lines) ps.

End Contract.

(** ** The draw engine's contract *)

(** Draws one after the other, each with its index and its time. *)
Fixpoint drawMany (draws : list (nat * Date)) (s : State) : option State :=
  match draws with
  | [] => Some s
  | (randomIndex, now) :: draws' =>
      match drawAndReveal randomIndex now s with
      | Some s' => drawMany draws' s'
      | None => None
      end
  end.

(** Indices that [Math.random] can give, draw after draw, on a pool of
    [n] participants. *)
Fixpoint valid_draws (n : nat) (draws : list (nat * Date)) : Prop :=
  match draws with
  | [] => True
  | (randomIndex, _) :: draws' => randomIndex < n /\ valid_draws (n - 1) draws'
  end.

(** A value that occurs at two places of a list. *)
Definition repeated {A : Type} (x : A) (l : list A) : Prop :=
  exists l1 l2 l3, l = l1 ++ x :: l2 ++ x :: l3.

(** The pool invariant: the remaining participants and the winners make up
    the snapshot, the remaining ones in the order of the snapshot, and the
    winners carry the ranks 1, 2, ... in the order of the history. *)
Definition PoolInvariant (s : State) : Prop :=
  participants s ++ List.map selected (winners s) ≡ₚ originalParticipants s
  /\ sublist (participants s) (originalParticipants s)
  /\ List.map position (winners s)
     = List.map Z.of_nat (seq 1 (length (winners s))).

(** The four operations, each run to its end before the next starts. *)
Inductive Operation :=
| Load (text : jsstring)
| Draw (randomIndex : nat) (now : Date)
| Reset
| Clear.

Definition operate (toLowerCase : jsstring -> jsstring) (s : State)
    (op : Operation) : State :=
  match op with
  | Load text => fst (handleParticipantsSubmit toLowerCase (withText text s))
  | Draw randomIndex now =>
      match drawAndReveal randomIndex now s with
      | Some s' => s'
      | None => s
      end
  | Reset => fst (resetDraw s)
  | Clear => fst (clearAll s)
  end.

(** The load of [s] is accepted and leaves [s']. *)
Definition loaded (toLowerCase : jsstring -> jsstring) (s s' : State) : Prop :=
  exists count,
    handleParticipantsSubmit toLowerCase s
    = (s', [toast (participantsLoadedToast count)]).

(** [Number.MAX_SAFE_INTEGER] *)
Definition MAX_SAFE_INTEGER : Z := 2 ^ 53 - 1.

(** The integer that a line starts with (0 when it starts with no digit). *)
Definition leading_integer (line : jsstring) : Z :=
  digits_value (takeWhile is_digit (trim line)).

(** A text whose integers are all exactly representable. *)
Definition safe_integers (text : jsstring) : Prop :=
  Forall (fun line => (leading_integer line <= MAX_SAFE_INTEGER)%Z)
         (split newline text).

(** A run of the page in which the clear button is never clicked while a
    timer is pending. *)
Fixpoint calm (toLowerCase : jsstring -> jsstring) (p : Page)
    (evs : list Event) : Prop :=
  match evs with
  | [] => True
  | ev :: evs' =>
      (ev = ClickClear -> timers p = [])
      /\ calm toLowerCase (step toLowerCase p ev) evs'
  end.

(** What holds of a page along such a run: the pool invariant, and a draw is
    in progress exactly when a timer is pending, in which case there is one
    and its callback has seen the pool and the history as they are. *)
Definition PageInvariant (p : Page) : Prop :=
  PoolInvariant (state p)
  /\ ((timers p = [] /\ isDrawing (state p) = false)
      \/ (timers p = [{| seen_participants := participants (state p);
                         seen_winners := winners (state p) |}]
          /\ isDrawing (state p) = true
          /\ participants (state p) <> [])).

(** ** Sample inputs *)

Module Samples.

(** Two lines, [1 - Alice] and [2 - Bob]. *)
Definition twoLines : jsstring :=
  lit "1 - Alice" ++ [newline] ++ lit "2 - Bob".

(** The number 1 twice. *)
Definition sameNumber : jsstring :=
  lit "1 - A" ++ [newline] ++ lit "1 - B".

(** [2^53 + 1], the first integer that is not a double. *)
Definition unsafeLine : jsstring := lit "9007199254740993 - a".

(** [10^21], where [String] turns to exponential notation. *)
Definition hugeLine : jsstring := lit "1000000000000000000000 - a".

(** [10^309], beyond the doubles. *)
Definition overflowLine : jsstring :=
  lit "1" ++ repeat 48%N 309 ++ lit " - a".

Definition alice : Participant :=
  {| number := Fin 1; name := lit "Alice"; id := lit "1-alice" |}.
Definition bob : Participant :=
  {| number := Fin 2; name := lit "Bob"; id := lit "2-bob" |}.

(** Loaded, nothing drawn yet. *)
Definition loadedState : State :=
  {| participantText := twoLines;
     participants := [alice; bob];
     originalParticipants := [alice; bob];
     winners := [];
     currentWinner := None;
     isDrawing := false |}.

(** The user types two lines, loads them and starts a draw. *)
Definition startDraw : list Event :=
  [TypeText twoLines; ClickLoad; ClickDraw].

(** ... and clears everything before the winner is revealed. *)
Definition clearWhileDrawing : list Event :=
  startDraw ++ [ClickClear].

(** Three other lines, [5 - Eve], [6 - Fay] and [7 - Gus]. *)
Definition threeLines : jsstring :=
  lit "5 - Eve" ++ [newline] ++ lit "6 - Fay" ++ [newline] ++ lit "7 - Gus".

Definition eve : Participant :=
  {| number := Fin 5; name := lit "Eve"; id := lit "5-eve" |}.
Definition fay : Participant :=
  {| number := Fin 6; name := lit "Fay"; id := lit "6-fay" |}.
Definition gus : Participant :=
  {| number := Fin 7; name := lit "Gus"; id := lit "7-gus" |}.

(** ... and then loads three other lines, the winner still not revealed. *)
Definition clearAndReload : list Event :=
  clearWhileDrawing ++ [TypeText threeLines; ClickLoad].

End Samples.

(** ** Further notions *)

(** The line of a participant in the format that the page asks for,
    [number - name], as the history prints it after the [#]. *)
Definition entryLine (p : Participant) : jsstring :=
  numberToString (number p) ++ lit " - " ++ name p.

(** A list of participants, one line each. *)
Definition entryLines (ps : list Participant) : jsstring :=
  join [newline] (List.map entryLine ps).

(** A participant whose number prints in plain digits. *)
Definition plainNumber (p : Participant) : Prop :=
  forallb is_digit (numberToString (number p)) = true.

(** A state in which nothing has been drawn: the pool is the snapshot, the
    history is empty, no winner is on display and no draw is in progress. *)
Definition fresh (s : State) : Prop :=
  participants s = originalParticipants s
  /\ winners s = []
  /\ currentWinner s = None
  /\ isDrawing s = false.

(** No timer is pending and no draw is in progress, or one timer is pending
    and a draw is in progress. *)
Definition DrawGuard (p : Page) : Prop :=
  (timers p = [] /\ isDrawing (state p) = false)
  \/ (exists cl, timers p = [cl] /\ isDrawing (state p) = true).

(** No winner is on display while a draw is in progress, and the winner on
    display is the last one of the history. *)
Definition LatestOnDisplay (s : State) : Prop :=
  (isDrawing s = true -> currentWinner s = None)
  /\ (forall w, currentWinner s = Some w -> exists ws, winners s = ws ++ [w]).

(** The card of the current winner is rendered inside the draw section,
    when [currentWinner] is not [null]. *)
Definition winnerCardShown (s : State) : bool :=
  drawSectionShown s
  && match currentWinner s with Some _ => true | None => false end.

(** The state that an accepted load of [s] leaves. *)
Definition loadedFrom (toLowerCase : jsstring -> jsstring) (s : State) : State :=
  {| participantText := participantText s;
     participants := parseParticipants toLowerCase (participantText s);
     originalParticipants := parseParticipants toLowerCase (participantText s);
     winners := [];
     currentWinner := None;
     isDrawing := isDrawing s |}.

(* ================================================================== *)
(** * Part II: properties *)
(* ================================================================== *)

(** ** Strings *)

Module JSStringFacts.
Import JSString.

Lemma dropWhile_app p s t :
  dropWhile p (s ++ t) =
  if forallb p s then dropWhile p t else dropWhile p s ++ t.
Proof.
  induction s as [|c s IH]; simpl; [reflexivity|].
  destruct (p c); simpl; [exact IH | reflexivity].
Qed.

Lemma dropWhile_all p s : forallb p s = true -> dropWhile p s = [].
Proof.
  induction s as [|c s IH]; simpl; [reflexivity|].
  destruct (p c); simpl; [exact IH | discriminate].
Qed.

Lemma forallb_rev (p : char -> bool) s : forallb p (rev s) = forallb p s.
Proof.
  induction s as [|c s IH]; simpl; [reflexivity|].
  rewrite forallb_app, IH. simpl. rewrite andb_true_r. apply andb_comm.
Qed.

Lemma trimStart_spaces ws s :
  forallb is_space ws = true -> trimStart (ws ++ s) = trimStart s.
Proof. intros H. unfold trimStart. now rewrite dropWhile_app, H. Qed.

Lemma trimEnd_spaces s ws :
  forallb is_space ws = true -> trimEnd (s ++ ws) = trimEnd s.
Proof.
  intros H. unfold trimEnd.
  now rewrite rev_app_distr, dropWhile_app, forallb_rev, H.
Qed.

Lemma trim_all ws : forallb is_space ws = true -> trim ws = [].
Proof.
  intros H. unfold trim, trimStart. now rewrite dropWhile_all.
Qed.

Lemma trim_spaces_l ws s :
  forallb is_space ws = true -> trim (ws ++ s) = trim s.
Proof. intros H. unfold trim. now rewrite trimStart_spaces. Qed.

Lemma trim_spaces_r s ws :
  forallb is_space ws = true -> trim (s ++ ws) = trim s.
Proof.
  intros H. unfold trim, trimStart. rewrite dropWhile_app.
  destruct (forallb is_space s) eqn:E.
  - rewrite (dropWhile_all _ s E), (dropWhile_all _ ws H). reflexivity.
  - now apply trimEnd_spaces.
Qed.

(** Two ways to cut a string at the first unit outside a class agree. *)
Lemma cut_unique (p : char -> bool) l1 x r1 l2 y r2 :
  l1 ++ x :: r1 = l2 ++ y :: r2 ->
  forallb p l1 = true -> forallb p l2 = true ->
  p x = false -> p y = false ->
  l1 = l2 /\ x = y /\ r1 = r2.
Proof.
  revert l2. induction l1 as [|a l1 IH]; intros [|b l2]; simpl; intros E H1 H2 Hx Hy.
  - injection E as -> ->. auto.
  - injection E as -> _. apply andb_prop in H2 as [H2 _]. congruence.
  - injection E as -> _. apply andb_prop in H1 as [H1 _]. congruence.
  - injection E as -> E.
    apply andb_prop in H1 as [_ H1]. apply andb_prop in H2 as [_ H2].
    destruct (IH l2 E H1 H2 Hx Hy) as (-> & -> & ->). auto.
Qed.

Lemma hyphen_not_space : is_space hyphen = false.
Proof. reflexivity. Qed.

(** [replace(/\s+/g, '-')] leaves no white space, and leaves a string without
    white space as it is. *)
Lemma replace_spaces_no_space s :
  forallb (fun c => negb (is_space c)) (replace_spaces s) = true.
Proof.
  unfold replace_spaces. generalize false.
  induction s as [|c s IH]; intros b; simpl; [reflexivity|].
  destruct (is_space c) eqn:E.
  - destruct b; simpl; now rewrite ?IH.
  - simpl. now rewrite E, IH.
Qed.

Lemma replace_spaces_id s :
  forallb (fun c => negb (is_space c)) s = true -> replace_spaces s = s.
Proof.
  unfold replace_spaces. generalize false.
  induction s as [|c s IH]; intros b; simpl; [reflexivity|].
  intros H. apply andb_prop in H as [Hc H]. apply negb_true_iff in Hc.
  rewrite Hc. f_equal. now apply IH.
Qed.

Lemma space_not_digit c : is_space c = true -> is_digit c = false.
Proof.
  unfold is_space, is_line_terminator, is_digit. intros H.
  destruct (48 <=? c)%N eqn:E1; [|reflexivity].
  destruct (c <=? 57)%N eqn:E2; [|reflexivity].
  apply N.leb_le in E1, E2. exfalso.
  repeat (apply orb_prop in H as [H|H]);
    repeat match goal with
      | H : (_ =? _)%N = true |- _ => apply N.eqb_eq in H
      | H : (_ && _) = true |- _ => apply andb_prop in H as [? ?]
      | H : (_ <=? _)%N = true |- _ => apply N.leb_le in H
      end; lia.
Qed.

End JSStringFacts.

(** ** The regular expression *)

Module RegexFacts.
Import JSString Regex.

Section Matcher.
Context {A : Type}.
Implicit Types (k : jsstring -> jsstring -> option A).

(** A repetition that succeeds has cut the input somewhere. *)
Lemma star_Some p s k r :
  star p s k = Some r ->
  exists m rest, s = m ++ rest /\ forallb p m = true /\ k m rest = Some r.
Proof.
  revert k. induction s as [|c s IH]; intros k; simpl.
  - intros H. exists [], []. auto.
  - destruct (p c) eqn:Ec.
    + destruct (star p s _) as [r'|] eqn:Es.
      * intros [= ->]. apply IH in Es as (m & rest & -> & Hm & Hk).
        exists (c :: m), rest. simpl. rewrite Ec, Hm. auto.
      * intros H. exists [], (c :: s). auto.
    + intros H. exists [], (c :: s). auto.
Qed.

(** A repetition that fails has tried every cut. *)
Lemma star_None p s k :
  star p s k = None ->
  forall m rest, s = m ++ rest -> forallb p m = true -> k m rest = None.
Proof.
  revert k. induction s as [|c s IH]; intros k; simpl.
  - intros H m rest E _. symmetry in E. apply app_eq_nil in E as [-> ->].
    exact H.
  - intros H [|c' m] rest E Hm; simpl in *.
    + subst rest. destruct (p c); [|exact H].
      destruct (star p s _); [discriminate | exact H].
    + injection E as <- ->. apply andb_prop in Hm as [Hc Hm].
      rewrite Hc in H. destruct (star p (m ++ rest) _) eqn:Es; [discriminate|].
      exact (IH _ Es m rest eq_refl Hm).
Qed.

Lemma plus_Some p s k r :
  plus p s k = Some r ->
  exists m rest,
    s = m ++ rest /\ m <> [] /\ forallb p m = true /\ k m rest = Some r.
Proof.
  destruct s as [|c s]; simpl; [discriminate|].
  destruct (p c) eqn:Ec; [|discriminate].
  intros H. apply star_Some in H as (m & rest & -> & Hm & Hk).
  exists (c :: m), rest. simpl. rewrite Ec, Hm. auto.
Qed.

Lemma plus_None p s k :
  plus p s k = None ->
  forall m rest,
    s = m ++ rest -> m <> [] -> forallb p m = true -> k m rest = None.
Proof.
  intros H [|c m] rest -> Hne Hm; [congruence|].
  simpl in *. apply andb_prop in Hm as [Hc Hm]. rewrite Hc in H.
  exact (star_None _ _ _ H m rest eq_refl Hm).
Qed.
End Matcher.

(** A match exhibits the shape, with the groups as they were captured. *)
Lemma match_line_Some s numberStr name :
  match_line s = Some (numberStr, name) ->
  exists ws1 ws2, shape s numberStr ws1 ws2 name.
Proof.
  unfold match_line. intros H.
  apply plus_Some in H as (ds & s1 & -> & Hds & Hdig & H).
  apply star_Some in H as (ws1 & s2 & -> & Hws1 & H).
  destruct s2 as [|c s3]; simpl in H; [discriminate|].
  destruct (N.eqb_spec c hyphen) as [->|]; [|discriminate].
  apply star_Some in H as (ws2 & s4 & -> & Hws2 & H).
  apply plus_Some in H as (nm & s5 & -> & Hnm & Hdot & H).
  destruct s5; simpl in H; [|discriminate].
  injection H as <- <-. rewrite app_nil_r.
  exists ws1, ws2. repeat split; auto.
Qed.

(** No match: the string has the shape in no way. *)
Lemma match_line_None s :
  match_line s = None -> forall ds ws1 ws2 rest, ~ shape s ds ws1 ws2 rest.
Proof.
  unfold match_line. intros H ds ws1 ws2 rest (-> & Hds & Hdig & Hws1 & Hws2 & Hr & Hdot).
  pose proof (plus_None _ _ _ H ds _ eq_refl Hds Hdig) as H1. simpl in H1.
  pose proof (star_None _ _ _ H1 ws1 _ eq_refl Hws1) as H2.
  unfold literal in H2. rewrite N.eqb_refl in H2.
  pose proof (star_None _ _ _ H2 ws2 _ eq_refl Hws2) as H3. simpl in H3.
  pose proof (plus_None _ _ _ H3 rest [] (eq_sym (app_nil_r _)) Hr Hdot) as H4.
  discriminate.
Qed.

(** The digits and what follows the hyphen are determined by the string. *)
Lemma shape_unique s ds ws1 ws2 rest ds' ws1' ws2' rest' :
  shape s ds ws1 ws2 rest -> shape s ds' ws1' ws2' rest' ->
  ds = ds' /\ ws2 ++ rest = ws2' ++ rest'.
Proof.
  intros (-> & _ & Hd & Hw1 & _) (E & _ & Hd' & Hw1' & _).
  assert (Hcut : forall ws t, forallb is_space ws = true ->
            exists x r, ws ++ hyphen :: t = x :: r /\ is_digit x = false).
  { intros [|w ws] t Hw; simpl.
    - eexists _, _. split; [reflexivity|]. reflexivity.
    - eexists _, _. split; [reflexivity|].
      apply andb_prop in Hw as [Hw _]. now apply JSStringFacts.space_not_digit. }
  destruct (Hcut ws1 (ws2 ++ rest) Hw1) as (x & r & Ex & Hx).
  destruct (Hcut ws1' (ws2' ++ rest') Hw1') as (x' & r' & Ex' & Hx').
  rewrite Ex, Ex' in E.
  destruct (JSStringFacts.cut_unique is_digit _ _ _ _ _ _ E Hd Hd' Hx Hx')
    as (-> & -> & ->).
  split; [reflexivity|].
  rewrite <- Ex' in Ex.
  destruct (JSStringFacts.cut_unique is_space _ _ _ _ _ _ Ex Hw1 Hw1'
              JSStringFacts.hyphen_not_space JSStringFacts.hyphen_not_space)
    as (_ & _ & ?).
  assumption.
Qed.

End RegexFacts.

(** ** Lines *)

Module LinesFacts.
Import JSString JSStringFacts.

Lemma content_app ls1 ls2 : content (ls1 ++ ls2) = content ls1 ++ content ls2.
Proof. unfold content. now rewrite List.map_app, List.filter_app. Qed.

Lemma content_cons_blank l ls :
  forallb is_space l = true -> content (l :: ls) = content ls.
Proof. intros H. unfold content. simpl. now rewrite (trim_all l H). Qed.

Lemma content_blanks ls :
  Forall (fun l => forallb is_space l = true) ls -> content ls = [].
Proof.
  induction 1 as [|l ls Hl _ IH]; [reflexivity|].
  now rewrite content_cons_blank.
Qed.

Lemma content_filter ls :
  content (List.filter (fun line => truthy (trim line)) ls) = content ls.
Proof.
  unfold content. induction ls as [|l ls IH]; simpl; [reflexivity|].
  destruct (truthy (trim l)) eqn:E; simpl; rewrite ?E; now rewrite IH.
Qed.

Lemma split_not_nil sep s : split sep s <> [].
Proof.
  destruct s as [|c s]; simpl; [discriminate|].
  destruct (c =? sep)%N; [discriminate|]. destruct (split sep s); discriminate.
Qed.

(** The lines of white space are white space. *)
Lemma split_spaces sep ws :
  forallb is_space ws = true ->
  Forall (fun l => forallb is_space l = true) (split sep ws).
Proof.
  induction ws as [|c ws IH]; simpl; intros H.
  - repeat constructor.
  - apply andb_prop in H as [Hc H]. specialize (IH H).
    destruct (c =? sep)%N.
    + constructor; [reflexivity | exact IH].
    + destruct (split sep ws) as [|l ls]; [repeat constructor; simpl; now rewrite Hc|].
      inversion IH; subst. constructor; [simpl; now rewrite Hc | assumption].
Qed.

(** White space in front of a text adds blank lines and indents the first
    line that is not blank. *)
Lemma content_split_spaces_l ws t :
  forallb is_space ws = true ->
  content (split newline (ws ++ t)) = content (split newline t).
Proof.
  induction ws as [|c ws IH]; simpl; intros H; [reflexivity|].
  apply andb_prop in H as [Hc H]. specialize (IH H).
  destruct (c =? newline)%N.
  - now rewrite content_cons_blank.
  - destruct (split newline (ws ++ t)) as [|l ls] eqn:E.
    + now apply split_not_nil in E.
    + rewrite <- IH. unfold content. simpl.
      assert (Et : trim (c :: l) = trim l).
      { apply (trim_spaces_l [c] l). simpl. now rewrite Hc. }
      now rewrite Et.
Qed.

(** White space after a text extends the last line and adds blank lines. *)
Lemma split_spaces_r ws t :
  forallb is_space ws = true ->
  exists pre l w blanks,
    split newline t = pre ++ [l]
    /\ split newline (t ++ ws) = pre ++ (l ++ w) :: blanks
    /\ forallb is_space w = true
    /\ Forall (fun l => forallb is_space l = true) blanks.
Proof.
  intros H. induction t as [|c t IH]; simpl.
  - pose proof (split_spaces newline ws H) as Hs.
    destruct (split newline ws) as [|w blanks] eqn:E;
      [now apply split_not_nil in E|].
    inversion Hs; subst. exists [], [], w, blanks. auto.
  - destruct IH as (pre & l & w & blanks & E1 & E2 & Hw & Hb).
    rewrite E1, E2. destruct (c =? newline)%N.
    + exists ([] :: pre), l, w, blanks. auto.
    + destruct pre as [|h pre]; simpl.
      * exists [], (c :: l), w, blanks. auto.
      * exists ((c :: h) :: pre), l, w, blanks. auto.
Qed.

Lemma content_split_spaces_r ws t :
  forallb is_space ws = true ->
  content (split newline (t ++ ws)) = content (split newline t).
Proof.
  intros H. destruct (split_spaces_r ws t H) as (pre & l & w & blanks & -> & -> & Hw & Hb).
  rewrite !content_app. f_equal.
  change ((l ++ w) :: blanks) with ([l ++ w] ++ blanks).
  rewrite content_app, (content_blanks blanks Hb), app_nil_r.
  unfold content. simpl. now rewrite trim_spaces_r.
Qed.

Lemma takeWhile_dropWhile p s : s = takeWhile p s ++ dropWhile p s.
Proof.
  induction s as [|c s IH]; simpl; [reflexivity|].
  destruct (p c); simpl; [now f_equal | reflexivity].
Qed.

Lemma takeWhile_all p s : forallb p (takeWhile p s) = true.
Proof.
  induction s as [|c s IH]; simpl; [reflexivity|].
  destruct (p c) eqn:E; simpl; [now rewrite E | reflexivity].
Qed.

Lemma trimStart_cut s :
  exists ws, forallb is_space ws = true /\ s = ws ++ trimStart s.
Proof.
  exists (takeWhile is_space s). split; [apply takeWhile_all|].
  apply takeWhile_dropWhile.
Qed.

Lemma trimEnd_cut s :
  exists ws, forallb is_space ws = true /\ s = trimEnd s ++ ws.
Proof.
  exists (rev (takeWhile is_space (rev s))). split.
  - rewrite forallb_rev. apply takeWhile_all.
  - unfold trimEnd. rewrite <- rev_app_distr, <- takeWhile_dropWhile.
    now rewrite rev_involutive.
Qed.

(** Trimming the text first changes nothing to the lines that count. *)
Lemma content_split_trim text :
  content (split newline (trim text)) = content (split newline text).
Proof.
  destruct (trimStart_cut text) as (wl & Hl & El).
  destruct (trimEnd_cut (trimStart text)) as (wr & Hr & Er).
  pose proof (content_split_spaces_l wl (trimStart text) Hl) as H1.
  pose proof (content_split_spaces_r wr (trimEnd (trimStart text)) Hr) as H2.
  rewrite <- El in H1. rewrite <- Er in H2.
  unfold trim. congruence.
Qed.

Lemma trim_idem s : trim (trim s) = trim s.
Proof.
  destruct (trimStart_cut s) as (wl & Hl & El).
  destruct (trimEnd_cut (trimStart s)) as (wr & Hr & Er).
  fold (trim s) in Er.
  assert (E : trim s = trim (trim s)).
  { rewrite El at 1. rewrite trim_spaces_l by assumption.
    rewrite Er at 1. now rewrite trim_spaces_r by assumption. }
  now rewrite <- E.
Qed.

End LinesFacts.

(** ** Numbers *)

Module JSNumberFacts.
Import JSString JSStringFacts JSNumber.
Local Open Scope Z_scope.

(** *** Rounding *)

Lemma round_magnitude_small a : 0 < a < 2 ^ 53 -> round_magnitude a = a.
Proof.
  intros [H0 H]. unfold round_magnitude.
  apply Z.log2_lt_pow2 in H; [|assumption].
  destruct (Z.leb_spec (Z.log2 a - 52) 0); [reflexivity | lia].
Qed.

(** An integer with a 53-bit significand is its own rounding. *)
Lemma round_magnitude_exact q e :
  0 <= e -> 2 ^ 52 <= q < 2 ^ 53 -> round_magnitude (q * 2 ^ e) = q * 2 ^ e.
Proof.
  intros He [Hq1 Hq2]. unfold round_magnitude.
  assert (Hp : 0 < 2 ^ e) by (apply Z.pow_pos_nonneg; lia).
  assert (Hl : Z.log2 (q * 2 ^ e) = 52 + e).
  { apply Z.log2_unique; [lia|].
    replace (Z.succ (52 + e)) with (53 + e) by lia.
    rewrite !Z.pow_add_r by lia. nia. }
  rewrite Hl. replace (52 + e - 52) with e by lia.
  destruct (Z.leb_spec e 0); [reflexivity|].
  rewrite Z.div_mul, Z.mod_mul by lia.
  assert (0 < 2 ^ (e - 1)) by (apply Z.pow_pos_nonneg; lia).
  destruct (Z.ltb_spec (2 ^ (e - 1)) 0); [lia|].
  destruct (Z.eqb_spec 0 (2 ^ (e - 1))); [lia|]. reflexivity.
Qed.

(** The rounding of a large integer: a 53-bit significand, or the next
    power of two. *)
Lemma round_magnitude_large a :
  2 ^ 53 <= a ->
  exists q e, 0 < e /\ 2 ^ 52 <= q <= 2 ^ 53 /\ round_magnitude a = q * 2 ^ e.
Proof.
  intros H. unfold round_magnitude.
  assert (H0 : 0 < a) by lia.
  assert (Hlog : 53 <= Z.log2 a) by (apply Z.log2_le_pow2; lia).
  destruct (Z.log2_spec a H0) as [Hlo Hhi].
  set (e := Z.log2 a - 52) in *.
  assert (He : 0 < e) by lia.
  assert (Hp : 0 < 2 ^ e) by (apply Z.pow_pos_nonneg; lia).
  replace (Z.log2 a) with (52 + e) in Hlo by lia.
  replace (Z.succ (Z.log2 a)) with (53 + e) in Hhi by lia.
  rewrite Z.pow_add_r in Hlo, Hhi by lia.
  assert (Hq1 : 2 ^ 52 <= a / 2 ^ e) by (apply Z.div_le_lower_bound; lia).
  assert (Hq2 : a / 2 ^ e < 2 ^ 53) by (apply Z.div_lt_upper_bound; lia).
  destruct (Z.leb_spec e 0); [lia|].
  eexists _, e. split; [assumption|]. split; [|reflexivity].
  destruct (_ || _); lia.
Qed.

Lemma round_magnitude_idem a :
  0 < a -> round_magnitude (round_magnitude a) = round_magnitude a.
Proof.
  intros H0. destruct (Z.lt_ge_cases a (2 ^ 53)) as [H|H].
  - rewrite (round_magnitude_small a) by lia. apply round_magnitude_small. lia.
  - destruct (round_magnitude_large a H) as (q & e & He & [Hq1 Hq2] & ->).
    destruct (Z.eq_dec q (2 ^ 53)) as [->|Hne].
    + replace (2 ^ 53 * 2 ^ e) with (2 ^ 52 * 2 ^ (e + 1))
        by (rewrite Z.pow_add_r by lia; change (2 ^ 1) with 2; lia).
      apply round_magnitude_exact; lia.
    + apply round_magnitude_exact; lia.
Qed.

Lemma round_magnitude_pos a : 0 < a -> 0 < round_magnitude a.
Proof.
  intros H0. destruct (Z.lt_ge_cases a (2 ^ 53)) as [H|H].
  - rewrite round_magnitude_small; lia.
  - destruct (round_magnitude_large a H) as (q & e & He & [Hq1 Hq2] & ->).
    assert (0 < 2 ^ e) by (apply Z.pow_pos_nonneg; lia). nia.
Qed.

Lemma round_magnitude_ge a : 2 ^ 53 <= a -> 2 ^ 53 <= round_magnitude a.
Proof.
  intros H. destruct (round_magnitude_large a H) as (q & e & He & [Hq1 Hq2] & ->).
  assert (2 ^ 1 <= 2 ^ e) by (apply Z.pow_le_mono_r; lia).
  change (2 ^ 1) with 2 in *. nia.
Qed.

Lemma roundToDouble_pos z :
  0 < z ->
  roundToDouble z =
    if 2 ^ 1024 <=? round_magnitude z then PosInfinity
    else Fin (round_magnitude z).
Proof.
  intros H. unfold roundToDouble.
  destruct (Z.eqb_spec z 0); [lia|].
  rewrite Z.abs_eq, Z.sgn_pos by lia.
  destruct (Z.ltb_spec 0 z); [|lia].
  destruct (_ <=? _); [reflexivity|]. f_equal. lia.
Qed.

Lemma roundToDouble_not_NaN z : roundToDouble z <> NaN.
Proof.
  unfold roundToDouble. destruct (z =? 0); [discriminate|].
  destruct (_ <=? _); [destruct (0 <? z)|]; discriminate.
Qed.

(** Up to [2^53 - 1] every natural number is a double. *)
Lemma roundToDouble_safe z :
  0 <= z <= MAX_SAFE_INTEGER -> roundToDouble z = Fin z.
Proof.
  unfold MAX_SAFE_INTEGER. intros H.
  destruct (Z.eq_dec z 0) as [->|Hz]; [reflexivity|].
  rewrite roundToDouble_pos, round_magnitude_small by lia.
  destruct (Z.leb_spec (2 ^ 1024) z); [|reflexivity].
  assert (2 ^ 53 <= 2 ^ 1024) by (apply Z.pow_le_mono_r; lia). lia.
Qed.

(** What rounds to a positive number is positive. *)
Lemma roundToDouble_sign v z : roundToDouble v = Fin z -> 0 < z -> 0 < v.
Proof.
  intros H Hz. destruct (Z.lt_trichotomy v 0) as [Hv|[->|Hv]]; [| |assumption].
  2:{ change (roundToDouble 0) with (Fin 0) in H. injection H as <-. lia. }
  exfalso. unfold roundToDouble in H.
  destruct (Z.eqb_spec v 0); [lia|].
  destruct (_ <=? _).
  - destruct (0 <? v); discriminate.
  - injection H as <-. rewrite Z.sgn_neg in Hz by lia.
    pose proof (round_magnitude_pos (Z.abs v)). lia.
Qed.

(** The doubles are the fixed points of the rounding. *)
Lemma roundToDouble_idem z m :
  0 <= z -> roundToDouble z = Fin m -> roundToDouble m = Fin m.
Proof.
  intros Hz H. destruct (Z.eq_dec z 0) as [->|Hne]; [now injection H as <-|].
  rewrite roundToDouble_pos in H by lia.
  destruct (Z.leb_spec (2 ^ 1024) (round_magnitude z)) as [|Hlt]; [discriminate|].
  injection H as <-.
  pose proof (round_magnitude_pos z).
  rewrite roundToDouble_pos, round_magnitude_idem by lia.
  destruct (Z.leb_spec (2 ^ 1024) (round_magnitude z)); [lia | reflexivity].
Qed.

(** Only a safe integer rounds to itself among what rounds to it. *)
Lemma roundToDouble_safe_inv v z :
  0 < z <= MAX_SAFE_INTEGER -> roundToDouble v = Fin z -> v = z.
Proof.
  unfold MAX_SAFE_INTEGER. intros Hz H.
  assert (Hv : 0 < v) by (apply (roundToDouble_sign v z); [assumption | lia]).
  destruct (Z.lt_ge_cases v (2 ^ 53)) as [Hs|Hb].
  - rewrite roundToDouble_safe in H by (unfold MAX_SAFE_INTEGER; lia).
    now injection H.
  - rewrite roundToDouble_pos in H by lia.
    pose proof (round_magnitude_ge v Hb).
    destruct (_ <=? _); [discriminate|]. injection H as <-. lia.
Qed.

(** *** Numerals *)

Lemma lit_inj s1 s2 : lit s1 = lit s2 -> s1 = s2.
Proof.
  unfold lit. intros H.
  rewrite <- (string_of_list_ascii_of_string s1), <- (string_of_list_ascii_of_string s2).
  f_equal. revert H. generalize (list_ascii_of_string s1) (list_ascii_of_string s2).
  induction l as [|a l IH]; intros [|b l']; simpl; try discriminate; [reflexivity|].
  intros [= Hab Hl]. f_equal; [|now apply IH].
  rewrite <- (ascii_N_embedding a), <- (ascii_N_embedding b). now f_equal.
Qed.

Lemma decimal_inj a b : 0 <= a -> 0 <= b -> decimal a = decimal b -> a = b.
Proof.
  unfold decimal. intros Ha Hb H. apply lit_inj in H.
  assert (Hu : N.to_uint (Z.to_N a) = N.to_uint (Z.to_N b)).
  { pose proof (NilEmpty.usu (N.to_uint (Z.to_N a))) as H1.
    pose proof (NilEmpty.usu (N.to_uint (Z.to_N b))) as H2. congruence. }
  apply DecimalN.Unsigned.to_uint_inj in Hu. lia.
Qed.

Lemma string_of_uint_digits d :
  forallb is_digit (lit (NilEmpty.string_of_uint d)) = true.
Proof. induction d; simpl; auto. Qed.

Lemma decimal_digits z : forallb is_digit (decimal z) = true.
Proof. apply string_of_uint_digits. Qed.

Lemma digit_numeral_unit s :
  forallb is_digit s = true -> forallb is_numeral_unit s = true.
Proof.
  induction s as [|c s IH]; simpl; [reflexivity|].
  intros H. apply andb_prop in H as [Hc H]. unfold is_numeral_unit at 1.
  now rewrite Hc, IH.
Qed.

Lemma digits_without (p : char -> bool) s :
  (forall c, is_digit c = true -> p c = true) ->
  forallb is_digit s = true -> forallb p s = true.
Proof.
  intros Hp. induction s as [|c s IH]; simpl; [reflexivity|].
  intros H. apply andb_prop in H as [Hc H]. now rewrite (Hp c Hc), IH.
Qed.

Lemma digit_not_e c : is_digit c = true -> not_e c = true.
Proof.
  unfold is_digit, not_e. intros H. apply andb_prop in H as [_ H].
  apply N.leb_le in H. destruct (N.eqb_spec c 101); [lia | reflexivity].
Qed.

Lemma stripZeros_cut ds :
  exists zs, forallb (fun c => (c =? 48)%N) zs = true /\ ds = stripZeros ds ++ zs.
Proof.
  exists (rev (takeWhile (fun c => (c =? 48)%N) (rev ds))). split.
  - rewrite forallb_rev. apply LinesFacts.takeWhile_all.
  - unfold stripZeros. rewrite <- rev_app_distr, <- LinesFacts.takeWhile_dropWhile.
    now rewrite rev_involutive.
Qed.

Lemma zeros_eq zs1 zs2 :
  forallb (fun c => (c =? 48)%N) zs1 = true ->
  forallb (fun c => (c =? 48)%N) zs2 = true ->
  length zs1 = length zs2 -> zs1 = zs2.
Proof.
  revert zs2. induction zs1 as [|a zs1 IH]; intros [|b zs2]; simpl;
    try discriminate; [reflexivity|].
  intros H1 H2 [= Hl].
  apply andb_prop in H1 as [Ha H1]. apply andb_prop in H2 as [Hb H2].
  apply N.eqb_eq in Ha, Hb. subst. f_equal. now apply IH.
Qed.

Lemma stripZeros_digits ds :
  forallb is_digit ds = true -> forallb is_digit (stripZeros ds) = true.
Proof.
  intros H. destruct (stripZeros_cut ds) as (zs & _ & E).
  rewrite E, forallb_app in H. now apply andb_prop in H as [H _].
Qed.

(** The two forms of [exponential]. *)
Lemma exponential_cases ds :
  (stripZeros ds = [] /\ exponential ds = ds)
  \/ (exists c rest,
        stripZeros ds = c :: rest
        /\ exponential ds =
             c :: (match rest with [] => [] | _ :: _ => 46%N :: rest end)
               ++ 101%N :: 43%N :: decimal (Z.of_nat (length ds) - 1)).
Proof.
  unfold exponential. destruct (stripZeros ds) as [|c rest]; [left; auto|].
  right. exists c, rest. auto.
Qed.

Lemma exponential_inj ds1 ds2 :
  forallb is_digit ds1 = true -> forallb is_digit ds2 = true ->
  exponential ds1 = exponential ds2 -> ds1 = ds2.
Proof.
  intros D1 D2 E.
  assert (He : forall ds c m t, forallb is_digit ds = true ->
                 ds <> c :: m ++ 101%N :: t).
  { intros ds c m t D ->. simpl in D. apply andb_prop in D as [_ D].
    rewrite forallb_app in D. apply andb_prop in D as [_ D]. discriminate. }
  destruct (exponential_cases ds1) as [[S1 X1]|(c1 & r1 & S1 & X1)];
    destruct (exponential_cases ds2) as [[S2 X2]|(c2 & r2 & S2 & X2)];
    rewrite X1, X2 in E.
  - assumption.
  - exfalso. exact (He _ _ _ _ D1 E).
  - exfalso. symmetry in E. exact (He _ _ _ _ D2 E).
  - injection E as <- E.
    pose proof (stripZeros_digits ds1 D1) as G1. rewrite S1 in G1.
    pose proof (stripZeros_digits ds2 D2) as G2. rewrite S2 in G2.
    simpl in G1, G2. apply andb_prop in G1 as [_ G1]. apply andb_prop in G2 as [_ G2].
    assert (Hm : forall r, forallb is_digit r = true ->
              forallb not_e (match r with [] => [] | _ :: _ => 46%N :: r end) = true).
    { intros [|x r] Hr; [reflexivity|].
      change (forallb not_e (46%N :: x :: r)) with (forallb not_e (x :: r)).
      exact (digits_without not_e _ digit_not_e Hr). }
    destruct (cut_unique not_e _ _ _ _ _ _ E (Hm r1 G1) (Hm r2 G2) eq_refl eq_refl)
      as (Er & _ & Ed).
    injection Ed as Ed.
    assert (Hr : r1 = r2).
    { destruct r1, r2; congruence. }
    subst r2.
    assert (Hn1 : ds1 <> []) by (intros ->; discriminate).
    assert (Hn2 : ds2 <> []) by (intros ->; discriminate).
    assert (Hl : length ds1 = length ds2).
    { apply decimal_inj in Ed.
      - lia.
      - destruct ds1; [congruence | simpl; lia].
      - destruct ds2; [congruence | simpl; lia]. }
    destruct (stripZeros_cut ds1) as (z1 & Z1 & E1).
    destruct (stripZeros_cut ds2) as (z2 & Z2 & E2).
    rewrite S1 in E1. rewrite S2 in E2.
    rewrite E1, E2. f_equal. apply zeros_eq; try assumption.
    apply (f_equal (@length char)) in E1, E2.
    rewrite length_app in E1, E2. simpl in E1, E2. unfold char in *. lia.
Qed.

Lemma render_inj v w : 0 <= v -> 0 <= w -> render v = render w -> v = w.
Proof.
  intros Hv Hw. unfold render.
  assert (He : forall a b, 0 <= a -> 0 <= b ->
                 decimal a = exponential (decimal b) -> a = b).
  { intros a b Ha Hb E.
    destruct (exponential_cases (decimal b)) as [[_ X]|(c & r & _ & X)];
      rewrite X in E.
    - now apply decimal_inj.
    - exfalso. pose proof (decimal_digits a) as D. rewrite E in D.
      simpl in D. apply andb_prop in D as [_ D].
      rewrite forallb_app in D. apply andb_prop in D as [_ D]. discriminate. }
  destruct (v <? 10 ^ 21), (w <? 10 ^ 21); intros E.
  - now apply decimal_inj.
  - now apply He.
  - symmetry. now apply He.
  - apply exponential_inj in E; auto using decimal_digits. now apply decimal_inj.
Qed.

Lemma exponential_units ds :
  forallb is_digit ds = true -> forallb is_numeral_unit (exponential ds) = true.
Proof.
  intros D.
  destruct (exponential_cases ds) as [[_ ->]|(c & r & S & ->)];
    [now apply digit_numeral_unit|].
  pose proof (stripZeros_digits ds D) as G. rewrite S in G.
  simpl in G. apply andb_prop in G as [Gc G].
  simpl. unfold is_numeral_unit at 1. rewrite Gc. simpl.
  rewrite forallb_app. apply andb_true_intro. split.
  - destruct r as [|x r]; [reflexivity|].
    change (is_numeral_unit 46%N && forallb is_numeral_unit (x :: r) = true).
    now rewrite (digit_numeral_unit _ G).
  - change (forallb is_numeral_unit (decimal (Z.of_nat (length ds) - 1)) = true).
    apply digit_numeral_unit, decimal_digits.
Qed.

Lemma render_units v : forallb is_numeral_unit (render v) = true.
Proof.
  unfold render. destruct (_ <? _).
  - apply digit_numeral_unit, decimal_digits.
  - apply exponential_units, decimal_digits.
Qed.

(** *** The shortest numeral *)

Lemma roundtrips_spec v z : roundtrips v z = true -> roundToDouble v = Fin z.
Proof.
  unfold roundtrips. destruct (roundToDouble v); try discriminate.
  intros H. apply Z.eqb_eq in H. now subst.
Qed.

Lemma candidate_roundtrips z e v :
  candidate z e = Some v -> roundToDouble v = Fin z.
Proof.
  unfold candidate.
  destruct (roundtrips (z / 10 ^ e * 10 ^ e) z) eqn:E1;
    destruct (roundtrips (z / 10 ^ e * 10 ^ e + 10 ^ e) z) eqn:E2;
    intros [= <-]; repeat destruct (_ <? _); try destruct (Z.even _);
    now apply roundtrips_spec.
Qed.

Lemma search_cases z d ks :
  search z d ks = z \/ exists e, candidate z e = Some (search z d ks).
Proof.
  induction ks as [|k ks IH]; simpl; [now left|].
  destruct (candidate z _) eqn:E; [right; eauto | exact IH].
Qed.

Lemma shortest_roundtrips z :
  roundToDouble z = Fin z -> roundToDouble (shortest z) = Fin z.
Proof.
  intros H. unfold shortest.
  destruct (search_cases z (Z.of_nat (length (decimal z))) (List.map Z.of_nat (seq 1 17)))
    as [->|[e E]]; [assumption|].
  now apply candidate_roundtrips in E.
Qed.

Lemma shortest_safe z : 0 < z <= MAX_SAFE_INTEGER -> shortest z = z.
Proof.
  intros H. unfold shortest.
  destruct (search_cases z (Z.of_nat (length (decimal z))) (List.map Z.of_nat (seq 1 17)))
    as [E|[e E]]; [assumption|].
  apply candidate_roundtrips in E. now apply roundToDouble_safe_inv in E.
Qed.

(** *** [String(x)] *)

Lemma roundToDouble_natural z : 0 <= z -> natural_double (roundToDouble z).
Proof.
  intros Hz. destruct (roundToDouble z) as [| | |m] eqn:E; simpl; auto.
  - now apply roundToDouble_not_NaN in E.
  - destruct (Z.eq_dec z 0) as [->|]; [discriminate|].
    rewrite roundToDouble_pos in E by lia. destruct (_ <=? _); discriminate.
  - split; [|now apply (roundToDouble_idem z)].
    destruct (Z.eq_dec z 0) as [->|]; [injection E as <-; lia|].
    rewrite roundToDouble_pos in E by lia. destruct (_ <=? _); [discriminate|].
    injection E as <-. pose proof (round_magnitude_pos z). lia.
Qed.

Lemma numberToString_natural x :
  natural_double x ->
  x = PosInfinity
  \/ exists z v, x = Fin z /\ 0 <= v /\ roundToDouble v = Fin z
                /\ numberToString x = render v.
Proof.
  destruct x as [| | |z]; simpl; try tauto. intros [Hz Hd]. right.
  destruct (Z.eqb_spec z 0) as [->|Hne].
  - exists 0, 0. repeat split; auto; lia.
  - destruct (Z.ltb_spec z 0); [lia|].
    exists z, (shortest z). pose proof (shortest_roundtrips z Hd) as Hs.
    repeat split; auto.
    apply roundToDouble_sign in Hs; lia.
Qed.

(** No hyphen in the string of a number of the parser. *)
Lemma numberToString_no_hyphen x :
  natural_double x ->
  forallb (fun c => negb (c =? hyphen)%N) (numberToString x) = true.
Proof.
  intros H. destruct (numberToString_natural x H) as [->|(z & v & _ & _ & _ & ->)];
    [reflexivity|].
  pose proof (render_units v) as U. revert U. generalize (render v).
  induction j as [|c j IH]; simpl; [reflexivity|].
  intros U. apply andb_prop in U as [Uc U]. rewrite (IH U), andb_true_r.
  unfold is_numeral_unit, is_digit in Uc. unfold hyphen.
  destruct (N.eqb_spec c 45); [subst; discriminate | reflexivity].
Qed.

(** Two numbers of the parser with the same string are the same number. *)
Lemma numberToString_inj x y :
  natural_double x -> natural_double y ->
  numberToString x = numberToString y -> x = y.
Proof.
  intros Hx Hy E.
  assert (Hinf : forall v, render v <> numberToString PosInfinity).
  { intros v Ev. pose proof (render_units v) as U. rewrite Ev in U. discriminate. }
  destruct (numberToString_natural x Hx) as [->|(z1 & v1 & -> & P1 & R1 & S1)];
    destruct (numberToString_natural y Hy) as [->|(z2 & v2 & -> & P2 & R2 & S2)].
  - reflexivity.
  - rewrite S2 in E. symmetry in E. now apply Hinf in E.
  - rewrite S1 in E. now apply Hinf in E.
  - rewrite S1, S2 in E. apply render_inj in E; [|assumption..]. congruence.
Qed.

(** The string of a safe integer is its decimal numeral. *)
Lemma numberToString_safe z :
  0 <= z <= MAX_SAFE_INTEGER -> numberToString (Fin z) = decimal z.
Proof.
  intros H. simpl. destruct (Z.eqb_spec z 0) as [->|Hne]; [reflexivity|].
  destruct (Z.ltb_spec z 0); [lia|].
  rewrite shortest_safe by lia. unfold render.
  destruct (Z.ltb_spec z (10 ^ 21)); [reflexivity|].
  unfold MAX_SAFE_INTEGER in H. lia.
Qed.

(** *** [parseInt] on the first capture group *)

Lemma digit_not_space c : is_digit c = true -> is_space c = false.
Proof.
  intros H. destruct (is_space c) eqn:E; [|reflexivity].
  apply space_not_digit in E. congruence.
Qed.

Lemma takeWhile_id p s : forallb p s = true -> takeWhile p s = s.
Proof.
  induction s as [|c s IH]; simpl; [reflexivity|].
  intros H. apply andb_prop in H as [Hc H]. now rewrite Hc, IH.
Qed.

Lemma digits_value_nonneg ds : forallb is_digit ds = true -> 0 <= digits_value ds.
Proof.
  unfold digits_value.
  assert (H : forall acc, 0 <= acc -> forallb is_digit ds = true ->
              0 <= fold_left (fun acc c => 10 * acc + digit_value c) ds acc).
  { induction ds as [|c ds IH]; simpl; intros acc Hacc D; [lia|].
    apply andb_prop in D as [Dc D]. apply IH; [|assumption].
    unfold is_digit in Dc. apply andb_prop in Dc as [Dc _]. apply N.leb_le in Dc.
    unfold digit_value. lia. }
  apply H. lia.
Qed.

Lemma parseInt_digits ds :
  ds <> [] -> forallb is_digit ds = true ->
  parseInt ds = roundToDouble (digits_value ds).
Proof.
  intros Hne D. unfold parseInt, trimStart.
  destruct ds as [|c ds]; [congruence|]. simpl in D.
  apply andb_prop in D as [Dc D]. simpl dropWhile.
  rewrite (digit_not_space c Dc).
  assert (Hc : (48 <= c <= 57)%N).
  { unfold is_digit in Dc. apply andb_prop in Dc as [H1 H2].
    apply N.leb_le in H1, H2. lia. }
  destruct (N.eqb_spec c 45); [lia|]. destruct (N.eqb_spec c 43); [lia|].
  simpl takeWhile. rewrite Dc, (takeWhile_id _ _ D).
  f_equal. lia.
Qed.

Lemma parseInt_natural ds :
  ds <> [] -> forallb is_digit ds = true -> natural_double (parseInt ds).
Proof.
  intros Hne D. rewrite parseInt_digits by assumption.
  apply roundToDouble_natural, digits_value_nonneg, D.
Qed.

Lemma natural_not_NaN x : natural_double x -> isNaN x = false.
Proof. destruct x; simpl; tauto. Qed.

End JSNumberFacts.

(** ** The parser *)

Section ParserFacts.
Import JSStringFacts RegexFacts LinesFacts JSNumberFacts.

Variable toLowerCase : jsstring -> jsstring.

Lemma parse_line_push parsed line :
  parse_line toLowerCase parsed line = parsed ++ parse_line toLowerCase [] line.
Proof.
  unfold parse_line. destruct (Regex.match_line _) as [[numberStr name]|];
    [|now rewrite app_nil_r].
  destruct (_ && _); [reflexivity | now rewrite app_nil_r].
Qed.

(** The loop: the records of the lines, one after the other. *)
Lemma fold_parse_line lines parsed :
  fold_left (parse_line toLowerCase) lines parsed
  = parsed ++ flat_map (parse_line toLowerCase []) lines.
Proof.
  revert parsed. induction lines as [|l lines IH]; intros parsed; simpl.
  - now rewrite app_nil_r.
  - rewrite IH, (parse_line_push parsed l). now rewrite <- app_assoc.
Qed.

Lemma parse_line_trim l1 l2 :
  trim l1 = trim l2 -> parse_line toLowerCase [] l1 = parse_line toLowerCase [] l2.
Proof. unfold parse_line. now intros ->. Qed.

Lemma parse_line_blank l : trim l = [] -> parse_line toLowerCase [] l = [].
Proof. unfold parse_line. now intros ->. Qed.

Lemma flat_map_content lines :
  flat_map (parse_line toLowerCase []) lines
  = flat_map (parse_line toLowerCase []) (content lines).
Proof.
  unfold content. induction lines as [|l lines IH]; simpl; [reflexivity|].
  destruct (trim l) as [|c t] eqn:E; simpl.
  - now rewrite (parse_line_blank l E).
  - rewrite IH. f_equal. apply parse_line_trim. now rewrite <- E, trim_idem.
Qed.

(** The parser reads the lines of the text as they are: trimming the text
    and dropping the blank lines first changes nothing. *)
Lemma parseParticipants_lines text :
  parseParticipants toLowerCase text
  = flat_map (parse_line toLowerCase []) (split newline text).
Proof.
  unfold parseParticipants. rewrite fold_parse_line. simpl.
  rewrite flat_map_content, content_filter, content_split_trim.
  now rewrite <- flat_map_content.
Qed.

Lemma shape_of_entry line integer remainder :
  line_entry line integer remainder ->
  exists ws1 ws2, Regex.shape (trim line) integer ws1 ws2 remainder.
Proof.
  intros (ws1 & ws2 & E & Hi & Hd & H1 & H2 & Hdot & _ & Hr).
  exists ws1, ws2. repeat split; auto. intros ->. now apply Hr.
Qed.

(** What a line leaves: the record of its entry, or nothing when it has
    none. *)
Lemma parse_line_entry line :
  (exists integer remainder,
      line_entry line integer remainder
      /\ parse_line toLowerCase [] line = [entry toLowerCase integer remainder])
  \/ ((forall integer remainder, ~ line_entry line integer remainder)
      /\ parse_line toLowerCase [] line = []).
Proof.
  unfold parse_line.
  destruct (Regex.match_line (trim line)) as [[numberStr name]|] eqn:M.
  - destruct (match_line_Some _ _ _ M) as (ws1 & ws2 & Hs).
    pose proof Hs as (E & Hn & Hd & H1 & H2 & Hne & Hdot).
    pose proof (parseInt_natural numberStr Hn Hd) as Hnat.
    rewrite (natural_not_NaN _ Hnat). simpl.
    destruct (trim name) as [|c t] eqn:T; simpl.
    + right. split; [|reflexivity].
      intros i r (ws1' & ws2' & E' & Hi' & Hd' & H1' & H2' & Hdot' & _ & Hr).
      assert (Hs' : Regex.shape (trim line) i ws1' ws2' r).
      { repeat split; auto. intros ->. now apply Hr. }
      destruct (shape_unique _ _ _ _ _ _ _ _ _ Hs Hs') as [_ Eq].
      apply Hr. rewrite <- (trim_spaces_l ws2') by assumption.
      rewrite <- Eq. now rewrite trim_spaces_l by assumption.
    + left. exists numberStr, name. split.
      * exists ws1, ws2. repeat split; auto.
        -- intros Hnan. rewrite Hnan in Hnat. exact Hnat.
        -- rewrite T. discriminate.
      * unfold entry, normalized. now rewrite T.
  - right. split; [|reflexivity]. intros i r He.
    destruct (shape_of_entry _ _ _ He) as (ws1 & ws2 & Hs).
    exact (match_line_None _ M _ _ _ _ Hs).
Qed.

Lemma collected_lines lines :
  collected (entry toLowerCase) lines (flat_map (parse_line toLowerCase []) lines).
Proof.
  induction lines as [|l lines IH]; simpl; [constructor|].
  destruct (parse_line_entry l) as [(i & r & He & ->)|[Hno ->]]; simpl.
  - now constructor.
  - now apply collected_skip.
Qed.

(** The integer of an entry is the run of digits that the line starts
    with. *)
Lemma line_entry_integer line integer remainder :
  line_entry line integer remainder ->
  integer <> [] /\ forallb is_digit integer = true
  /\ takeWhile is_digit (trim line) = integer.
Proof.
  intros (ws1 & ws2 & -> & Hi & Hd & H1 & _). repeat split; auto.
  assert (Hx : exists x t, ws1 ++ hyphen :: ws2 ++ remainder = x :: t
                          /\ is_digit x = false).
  { destruct ws1 as [|w ws1]; simpl.
    - eexists _, _. split; reflexivity.
    - eexists _, _. split; [reflexivity|].
      simpl in H1. apply andb_prop in H1 as [H1 _]. now apply space_not_digit. }
  destruct Hx as (x & t & -> & Hx). clear Hi H1.
  induction integer as [|c i IH]; simpl.
  - now rewrite Hx.
  - simpl in Hd. apply andb_prop in Hd as [Hc Hd]. now rewrite Hc, IH.
Qed.

(** On a safe integer the record is the one of the integer as written. *)
Lemma entry_safe line integer remainder :
  line_entry line integer remainder ->
  (digits_value integer <= MAX_SAFE_INTEGER)%Z ->
  entry toLowerCase integer remainder
  = entry_as_written toLowerCase integer remainder.
Proof.
  intros He Hsafe. destruct (line_entry_integer _ _ _ He) as (Hn & Hd & _).
  pose proof (digits_value_nonneg integer Hd) as H0.
  unfold entry, entry_as_written.
  rewrite parseInt_digits, roundToDouble_safe, numberToString_safe by auto.
  reflexivity.
Qed.

Lemma collected_safe lines ps :
  collected (entry toLowerCase) lines ps ->
  Forall (fun line => (leading_integer line <= MAX_SAFE_INTEGER)%Z) lines ->
  collected (entry_as_written toLowerCase) lines ps.
Proof.
  induction 1 as [|l lines ps i r He Hc IH|l lines ps Hno Hc IH]; intros Hs.
  - constructor.
  - inversion Hs as [|? ? Hl Hls]; subst.
    destruct (line_entry_integer _ _ _ He) as (_ & _ & Ht).
    unfold leading_integer in Hl. rewrite Ht in Hl.
    rewrite (entry_safe l i r He Hl). constructor; auto.
  - inversion Hs; subst. apply collected_skip; auto.
Qed.

(** The entry of a line is determined by the line. *)
Lemma line_entry_unique line i r i' r' :
  line_entry line i r -> line_entry line i' r' -> i = i' /\ trim r = trim r'.
Proof.
  intros H H'.
  destruct (shape_of_entry _ _ _ H) as (ws1 & ws2 & Hs).
  destruct (shape_of_entry _ _ _ H') as (ws1' & ws2' & Hs').
  destruct (shape_unique _ _ _ _ _ _ _ _ _ Hs Hs') as [Ei Er].
  split; [exact Ei|].
  destruct Hs as (_ & _ & _ & _ & Hw & _). destruct Hs' as (_ & _ & _ & _ & Hw' & _).
  rewrite <- (trim_spaces_l ws2 r Hw), <- (trim_spaces_l ws2' r' Hw').
  now rewrite Er.
Qed.

(** The contract has one solution. *)
Lemma collected_unique lines ps ps' :
  collected (entry toLowerCase) lines ps ->
  collected (entry toLowerCase) lines ps' -> ps = ps'.
Proof.
  intros H. revert ps'.
  induction H as [|l lines ps i r He Hc IH|l lines ps Hno Hc IH]; intros ps' H';
    inversion H' as [|l' lines' qs i' r' He' Hc'|l' lines' qs Hno' Hc']; subst.
  - reflexivity.
  - destruct (line_entry_unique _ _ _ _ _ He He') as [-> Er].
    unfold entry. rewrite Er. f_equal. now apply IH.
  - now apply Hno' in He.
  - now apply Hno in He'.
  - now apply IH.
Qed.

Lemma collected_Forall mk lines ps (P : Participant -> Prop) :
  (forall line i r, line_entry line i r -> P (mk i r)) ->
  collected mk lines ps -> Forall P ps.
Proof. intros HP. induction 1; eauto. Qed.

(** Every record of the parser: a number that can be parsed, and the id
    made of the number and of the name. *)
Lemma parsed_records text :
  Forall (fun p =>
            natural_double (number p)
            /\ id p = numberToString (number p) ++ [hyphen]
                      ++ normalized toLowerCase (name p))
         (parseParticipants toLowerCase text).
Proof.
  rewrite parseParticipants_lines.
  apply (collected_Forall (entry toLowerCase) (split newline text)); [|apply collected_lines].
  intros line i r He. destruct (line_entry_integer _ _ _ He) as (Hn & Hd & _).
  split; [|reflexivity]. now apply parseInt_natural.
Qed.

End ParserFacts.

(** ** Arrays *)

Module JSArrayFacts.
Import JSNumber JSArray.

Lemma strict_equals_true y x : strict_equals y x = true -> y = x.
Proof.
  destruct y, x; simpl; try discriminate; try reflexivity.
  intros H. apply Z.eqb_eq in H. now subst.
Qed.

Lemma strict_equals_refl x : x <> NaN -> strict_equals x x = true.
Proof. destruct x; simpl; try congruence. intros _. apply Z.eqb_refl. Qed.

Lemma same_value_zero_eq x y : same_value_zero x y = true <-> x = y.
Proof.
  split.
  - destruct x, y; simpl; try discriminate; try reflexivity.
    intros H. apply Z.eqb_eq in H. now subst.
  - intros ->. destruct y; simpl; try reflexivity. apply Z.eqb_refl.
Qed.

(** [indexOf] finds the first occurrence. *)
Lemma indexOf_before pre suf x :
  x <> NaN -> In x pre ->
  (0 <= indexOf (pre ++ suf) x < Z.of_nat (length pre))%Z.
Proof.
  intros Hx. induction pre as [|y pre IH]; simpl; [tauto|].
  intros [->|Hin].
  - rewrite strict_equals_refl by assumption. lia.
  - destruct (strict_equals y x); [lia|]. specialize (IH Hin).
    destruct (Z.eqb_spec (indexOf (pre ++ suf) x) (-1)); lia.
Qed.

Lemma indexOf_first pre rest x :
  x <> NaN -> ~ In x pre ->
  indexOf (pre ++ x :: rest) x = Z.of_nat (length pre).
Proof.
  intros Hx. induction pre as [|y pre IH]; simpl; intros Hin.
  - now rewrite strict_equals_refl.
  - destruct (strict_equals y x) eqn:E.
    + apply strict_equals_true in E. subst. tauto.
    + rewrite IH by tauto. destruct (Z.eqb_spec (Z.of_nat (length pre)) (-1)); lia.
Qed.

Lemma Number_eq_dec (x y : Number) : {x = y} + {x <> y}.
Proof. decide equality. apply Z.eq_dec. Qed.

(** The filter of [duplicates_of] keeps the elements that occurred
    before. *)
Lemma filter_from_duplicates numbers pre suf x :
  numbers = pre ++ suf -> ~ In NaN numbers ->
  In x (filter_from (length pre)
          (fun num index => negb (indexOf numbers num =? Z.of_nat index)%Z) suf)
  <-> exists s1 s2, suf = s1 ++ x :: s2 /\ In x (pre ++ s1).
Proof.
  intros E Hnan. revert pre E.
  induction suf as [|y rest IH]; intros pre E; simpl.
  - split; [tauto|]. intros (s1 & s2 & H & _). now destruct s1.
  - assert (Hy : y <> NaN).
    { intros ->. apply Hnan. rewrite E. apply in_or_app. right. now left. }
    assert (E' : numbers = (pre ++ [y]) ++ rest) by now rewrite <- app_assoc.
    specialize (IH (pre ++ [y]) E'). rewrite length_app, Nat.add_1_r in IH.
    destruct (in_dec Number_eq_dec y pre) as [Hin|Hout].
    + pose proof (indexOf_before pre (y :: rest) y Hy Hin) as Hi. rewrite <- E in Hi.
      destruct (Z.eqb_spec (indexOf numbers y) (Z.of_nat (length pre))); [lia|].
      simpl. rewrite IH. split.
      * intros [->|(s1 & s2 & -> & H)].
        -- exists [], rest. rewrite app_nil_r. auto.
        -- exists (y :: s1), s2. split; [reflexivity|].
           rewrite <- app_assoc in H. exact H.
      * intros ([|z s1] & s2 & H & Hx); injection H as -> ->; [now left|].
        right. exists s1, s2. split; [reflexivity|]. now rewrite <- app_assoc.
    + pose proof (indexOf_first pre rest y Hy Hout) as Hi. rewrite <- E in Hi.
      rewrite Hi, Z.eqb_refl. simpl. rewrite IH. split.
      * intros (s1 & s2 & -> & H). exists (y :: s1), s2. split; [reflexivity|].
        rewrite <- app_assoc in H. exact H.
      * intros ([|z s1] & s2 & H & Hx); injection H as -> ->.
        -- rewrite app_nil_r in Hx. contradiction.
        -- exists s1, s2. split; [reflexivity|]. now rewrite <- app_assoc.
Qed.

Lemma repeated_split {A} (x : A) l :
  repeated x l <-> exists s1 s2, l = s1 ++ x :: s2 /\ In x s1.
Proof.
  split.
  - intros (l1 & l2 & l3 & ->). exists (l1 ++ x :: l2), l3.
    split; [now rewrite <- app_assoc|]. apply in_or_app. right. now left.
  - intros (s1 & s2 & -> & Hin). apply in_split in Hin as (l1 & l2 & ->).
    exists l1, l2, s2. now rewrite <- app_assoc.
Qed.

Lemma repeated_not_NoDup {A} (x : A) l : repeated x l -> ~ NoDup l.
Proof.
  intros (l1 & l2 & l3 & ->) H. apply list.NoDup_app in H as (_ & _ & H).
  apply list.NoDup_cons in H as [H _]. apply H.
  apply elem_of_app. right. now left.
Qed.

(** [[...new Set(a)]] has the values of [a], each once. *)
Lemma set_add_spec seen x :
  NoDup seen ->
  NoDup (set_add seen x) /\ forall y, In y (set_add seen x) <-> In y seen \/ y = x.
Proof.
  intros H. unfold set_add. destruct (existsb _ seen) eqn:E.
  - split; [assumption|]. intros y. split; [tauto|]. intros [Hy| ->]; [assumption|].
    apply existsb_exists in E as (z & Hz & Ez). apply same_value_zero_eq in Ez.
    now subst.
  - split.
    + apply list.NoDup_app. split; [assumption|]. split; [|apply NoDup_singleton].
      intros y Hy Hy'. apply list_elem_of_singleton in Hy'. subst y.
      apply list_elem_of_In in Hy.
      assert (existsb (same_value_zero x) seen = true); [|congruence].
      apply existsb_exists. exists x. split; [assumption|].
      now apply same_value_zero_eq.
    + intros y. rewrite in_app_iff. simpl. intuition congruence.
Qed.

Lemma fold_set_add_spec a seen :
  NoDup seen ->
  NoDup (fold_left set_add a seen)
  /\ forall y, In y (fold_left set_add a seen) <-> In y seen \/ In y a.
Proof.
  revert seen. induction a as [|x a IH]; intros seen H; simpl.
  - split; [assumption|]. tauto.
  - destruct (set_add_spec seen x H) as [Hn Hi].
    destruct (IH _ Hn) as [Hn' Hi']. split; [assumption|].
    intros y. rewrite Hi', Hi. intuition congruence.
Qed.

Lemma distinct_spec a :
  NoDup (distinct a) /\ forall y, In y (distinct a) <-> In y a.
Proof.
  destruct (fold_set_add_spec a [] (NoDup_nil_2)) as [Hn Hi].
  split; [assumption|]. intros y. rewrite (Hi y). simpl. tauto.
Qed.

(** [a.filter((_, index) => index !== i)] removes the element at [i]. *)
Lemma filter_from_keep {A} k (f : A -> nat -> bool) l :
  (forall x j, k <= j -> f x j = true) -> filter_from k f l = l.
Proof.
  revert k. induction l as [|x l IH]; intros k H; simpl; [reflexivity|].
  rewrite H by lia. f_equal. apply IH. intros y j Hj. apply H. lia.
Qed.

Lemma filter_from_delete {A} k i (l : list A) :
  filter_from k (fun _ index => negb (index =? k + i)%nat) l = delete i l.
Proof.
  revert k i. induction l as [|x l IH]; intros k i; simpl; [reflexivity|].
  destruct i as [|i].
  - rewrite Nat.add_0_r, Nat.eqb_refl. simpl. apply filter_from_keep.
    intros _ j Hj. destruct (Nat.eqb_spec j k); [lia | reflexivity].
  - destruct (Nat.eqb_spec k (k + S i)); [lia|]. simpl. f_equal.
    rewrite <- (IH (S k) i). now replace (S k + i)%nat with (k + S i)%nat by lia.
Qed.

Lemma filter_indexed_delete {A} i (l : list A) :
  filter_indexed (fun _ index => negb (index =? i)%nat) l = delete i l.
Proof. apply (filter_from_delete 0 i l). Qed.

End JSArrayFacts.

(** ** The handlers *)

Section HandlerFacts.
Import JSStringFacts JSNumberFacts JSArrayFacts.

Variable toLowerCase : jsstring -> jsstring.

Lemma parsed_numbers_not_NaN text :
  ~ In NaN (List.map number (parseParticipants toLowerCase text)).
Proof.
  pose proof (parsed_records toLowerCase text) as H.
  induction H as [|p ps [Hp _] _ IH]; simpl; [tauto|].
  intros [E|Hin]; [|tauto]. rewrite E in Hp. exact Hp.
Qed.

Lemma duplicates_of_In numbers x :
  ~ In NaN numbers -> (In x (duplicates_of numbers) <-> repeated x numbers).
Proof.
  intros Hnan. unfold duplicates_of, filter_indexed.
  rewrite (filter_from_duplicates numbers [] numbers x eq_refl Hnan).
  now rewrite repeated_split.
Qed.

Lemma NoDup_not_repeated {A} (l : list A) :
  (forall x, ~ repeated x l) -> NoDup l.
Proof.
  induction l as [|x l IH]; intros H; [constructor|]. constructor.
  - intros Hin. apply list_elem_of_In, in_split in Hin as (l1 & l2 & ->).
    apply (H x). now exists [], l1, l2.
  - apply IH. intros y (l1 & l2 & l3 & ->). apply (H y).
    now exists (x :: l1), l2, l3.
Qed.

Lemma duplicates_of_nil numbers :
  ~ In NaN numbers -> (duplicates_of numbers = [] <-> NoDup numbers).
Proof.
  intros Hnan. split.
  - intros E. apply NoDup_not_repeated. intros x Hx.
    apply (duplicates_of_In numbers x Hnan) in Hx. rewrite E in Hx. exact Hx.
  - intros Hn. destruct (duplicates_of numbers) as [|x d] eqn:E; [reflexivity|].
    exfalso. apply (repeated_not_NoDup x numbers); [|assumption].
    apply (duplicates_of_In numbers x Hnan). rewrite E. now left.
Qed.

(** The three ways out of [handleParticipantsSubmit]. *)
Lemma handleParticipantsSubmit_cases s :
  let parsed := parseParticipants toLowerCase (participantText s) in
  let numbers := List.map number parsed in
  (parsed = [] /\ handleParticipantsSubmit toLowerCase s = (s, [toast invalidFormatToast]))
  \/ (parsed <> [] /\ duplicates_of numbers <> []
      /\ handleParticipantsSubmit toLowerCase s
         = (s, [toast (duplicateNumbersToast (distinct (duplicates_of numbers)))]))
  \/ (parsed <> [] /\ duplicates_of numbers = []
      /\ handleParticipantsSubmit toLowerCase s
         = ({| participantText := participantText s;
               participants := parsed;
               originalParticipants := parsed;
               winners := [];
               currentWinner := None;
               isDrawing := isDrawing s |},
            [toast (participantsLoadedToast (length parsed))])).
Proof.
  intros parsed numbers. unfold handleParticipantsSubmit.
  fold parsed. fold numbers.
  destruct parsed as [|p ps] eqn:Ep; [left; auto|]. right.
  change (length (p :: ps) =? 0)%nat with false. cbv iota.
  destruct (duplicates_of numbers) as [|d ds] eqn:Ed.
  - right. repeat split; auto; discriminate.
  - left. repeat split; auto; discriminate.
Qed.

Lemma loaded_inv s s' :
  loaded toLowerCase s s' ->
  let parsed := parseParticipants toLowerCase (participantText s) in
  parsed <> [] /\ NoDup (List.map number parsed) /\ participants s' = parsed
  /\ originalParticipants s' = parsed /\ winners s' = []
  /\ currentWinner s' = None.
Proof.
  intros [count H] parsed.
  pose (flag := fun r : State * list Effect =>
                  match snd r with [toast t] => destructive t | _ => false end).
  destruct (handleParticipantsSubmit_cases s) as [[_ E]|[(_ & _ & E)|(Hne & Hdup & E)]];
    rewrite E in H.
  - apply (f_equal flag) in H. discriminate.
  - apply (f_equal flag) in H. discriminate.
  - apply (f_equal fst) in H. simpl in H. subst s'. simpl. repeat split; auto.
    apply duplicates_of_nil; [apply parsed_numbers_not_NaN | assumption].
Qed.

(** *** Draws *)

Lemma drawAndReveal_Some s i now p :
  participants s !! i = Some p ->
  drawAndReveal i now s
  = Some {| participantText := participantText s;
            participants := delete i (participants s);
            originalParticipants := originalParticipants s;
            winners := winners s
                       ++ [{| selected := p; drawnAt := now;
                              position := Z.of_nat (length (winners s)) + 1 |}];
            currentWinner :=
              Some {| selected := p; drawnAt := now;
                      position := Z.of_nat (length (winners s)) + 1 |};
            isDrawing := false |}.
Proof.
  intros H.
  assert (Hl : (length (participants s) =? 0)%nat = false).
  { destruct (participants s); [discriminate | reflexivity]. }
  unfold drawAndReveal, drawWinner. rewrite Hl.
  unfold revealWinner. simpl. rewrite H. simpl.
  now rewrite filter_indexed_delete.
Qed.

Lemma drawAndReveal_None s i now :
  participants s !! i = None -> drawAndReveal i now s = None.
Proof.
  intros H. unfold drawAndReveal, drawWinner.
  destruct (length (participants s) =? 0)%nat; [reflexivity|].
  unfold revealWinner. simpl. now rewrite H.
Qed.

Lemma drawAndReveal_snapshot s i now s' :
  drawAndReveal i now s = Some s' ->
  originalParticipants s' = originalParticipants s
  /\ S (length (participants s')) = length (participants s)
  /\ length (winners s') = S (length (winners s)).
Proof.
  destruct (participants s !! i) as [p|] eqn:E.
  - rewrite (drawAndReveal_Some s i now p E). intros [= <-]. simpl.
    split; [reflexivity|]. split.
    + rewrite length_delete by eauto.
      apply lookup_lt_Some in E. lia.
    + rewrite length_app. simpl. lia.
  - now rewrite (drawAndReveal_None s i now E).
Qed.

Lemma drawMany_snapshot draws s s' :
  drawMany draws s = Some s' ->
  originalParticipants s' = originalParticipants s.
Proof.
  revert s. induction draws as [|[i now] draws IH]; intros s; simpl.
  - now intros [= <-].
  - destruct (drawAndReveal i now s) as [s1|] eqn:E; [|discriminate].
    intros H. rewrite (IH _ H). now apply drawAndReveal_snapshot in E.
Qed.

Lemma drawMany_valid draws s :
  valid_draws (length (participants s)) draws ->
  exists s',
    drawMany draws s = Some s'
    /\ length (participants s') = length (participants s) - length draws
    /\ length (winners s') = length (winners s) + length draws.
Proof.
  revert s. induction draws as [|[i now] draws IH]; intros s; simpl.
  - intros _. exists s. repeat split; lia.
  - intros [Hi Hv]. destruct (lookup_lt_is_Some_2 (participants s) i Hi) as [p Hp].
    pose proof (drawAndReveal_Some s i now p Hp) as E.
    destruct (drawAndReveal_snapshot s i now _ E) as (_ & Hl & Hw).
    rewrite E. set (s1 := {| participantText := participantText s |}) in *.
    assert (Hv1 : valid_draws (length (participants s1)) draws).
    { replace (length (participants s1)) with (length (participants s) - 1) by lia.
      exact Hv. }
    destruct (IH s1 Hv1) as (s' & Hs' & Hl' & Hw').
    exists s'. repeat split; [assumption | lia | lia].
Qed.

(** *** The pool invariant under the four operations *)

Lemma PoolInvariant_fresh text parsed d :
  PoolInvariant {| participantText := text; participants := parsed;
                   originalParticipants := parsed; winners := [];
                   currentWinner := None; isDrawing := d |}.
Proof.
  unfold PoolInvariant. simpl. rewrite app_nil_r. repeat split; reflexivity.
Qed.

Lemma PoolInvariant_draw s i now s' :
  PoolInvariant s -> drawAndReveal i now s = Some s' -> PoolInvariant s'.
Proof.
  intros (Hp & Hs & Hr).
  destruct (participants s !! i) as [p|] eqn:E;
    [|now rewrite (drawAndReveal_None s i now E)].
  rewrite (drawAndReveal_Some s i now p E). intros [= <-].
  unfold PoolInvariant. simpl. repeat split.
  - rewrite <- Hp, List.map_app. simpl.
    rewrite (delete_Permutation (participants s) i p E) at 2.
    rewrite (Permutation_app_comm (List.map selected (winners s)) [p]).
    simpl. now rewrite Permutation_middle.
  - transitivity (participants s); [apply sublist_delete | assumption].
  - rewrite List.map_app, Hr, length_app. simpl.
    rewrite Nat.add_1_r, seq_S, List.map_app. simpl. f_equal. f_equal. lia.
Qed.

Lemma PoolInvariant_operate s op :
  PoolInvariant s -> PoolInvariant (operate toLowerCase s op).
Proof.
  intros H. destruct op as [text|i now| |]; simpl.
  - destruct (handleParticipantsSubmit_cases (withText text s))
      as [[_ E]|[(_ & _ & E)|(_ & _ & E)]]; rewrite E; simpl.
    + exact H.
    + exact H.
    + apply PoolInvariant_fresh.
  - destruct (drawAndReveal i now s) as [s'|] eqn:E; [|exact H].
    exact (PoolInvariant_draw s i now s' H E).
  - destruct H as (_ & _ & _). unfold PoolInvariant. simpl.
    rewrite app_nil_r. repeat split; reflexivity.
  - unfold PoolInvariant. simpl. repeat split; reflexivity.
Qed.

(** *** The page *)

Lemma PageInvariant_step p ev :
  PageInvariant p -> (ev = ClickClear -> timers p = []) ->
  PageInvariant (step toLowerCase p ev).
Proof.
  intros [Hpool Ht] Hclear.
  destruct ev as [value| | | | |n i now]; unfold step.
  - destruct (inputCardShown (state p)); [|now split].
    split; [exact Hpool | exact Ht].
  - destruct (loadEnabled (state p)) eqn:En; [|now split].
    unfold loadEnabled, inputCardShown in En. apply andb_prop in En as [En _].
    apply Nat.eqb_eq, length_zero_iff_nil in En.
    destruct Ht as [[Ht Hd]|(_ & _ & Hne)]; [|contradiction].
    unfold handle.
    destruct (handleParticipantsSubmit_cases (state p))
      as [[_ E]|[(_ & _ & E)|(_ & _ & E)]]; rewrite E; simpl.
    + split; [exact Hpool|]. left. auto.
    + split; [exact Hpool|]. left. auto.
    + split; [apply PoolInvariant_fresh|]. left. auto.
  - destruct (drawEnabled (state p)) eqn:En; [|now split].
    unfold drawEnabled, drawDisabled, drawSectionShown in En.
    apply andb_prop in En as [Hl En]. apply negb_true_iff, orb_false_iff in En as [Hd Hl'].
    destruct Ht as [[Ht _]|(_ & Hd' & _)]; [|congruence].
    unfold handle, drawWinner. rewrite Hl'. simpl. rewrite Ht. simpl.
    split; [exact Hpool|]. right. repeat split.
    simpl. intros E. rewrite E in Hl'. discriminate.
  - destruct (resetEnabled (state p)) eqn:En; [|now split].
    unfold resetEnabled, resetDisabled in En.
    apply andb_prop in En as [_ En]. apply negb_true_iff, orb_false_iff in En as [Hd _].
    destruct Ht as [[Ht _]|(_ & Hd' & _)]; [|congruence].
    unfold handle. simpl. split; [|left; auto].
    unfold PoolInvariant. simpl. rewrite app_nil_r. repeat split; reflexivity.
  - specialize (Hclear eq_refl).
    destruct Ht as [[_ Hd]|(Ht & _)]; [|rewrite Hclear in Ht; discriminate].
    unfold handle. simpl. split; [|left; auto].
    unfold PoolInvariant. simpl. repeat split; reflexivity.
  - destruct Ht as [[Ht Hd]|(Ht & Hd & Hne)].
    + rewrite Ht. rewrite lookup_nil. split; [exact Hpool | left; auto].
    + rewrite Ht. destruct n as [|n]; simpl;
        [|split; [exact Hpool | right; rewrite Ht; auto]].
      destruct (participants (state p) !! i) as [q|] eqn:Eq.
      * pose proof (drawAndReveal_Some (state p) i now q Eq) as E.
        unfold revealWinner. simpl. rewrite Eq. simpl. split; [|left; auto].
        apply (PoolInvariant_draw (state p) i now); [exact Hpool|].
        rewrite E. now rewrite filter_indexed_delete.
      * unfold revealWinner. simpl. rewrite Eq.
        split; [exact Hpool | right; rewrite Ht; auto].
Qed.

End HandlerFacts.

(** ** The claims *)

Section Claims.
Import JSStringFacts JSNumberFacts JSArrayFacts.

Variable toLowerCase : jsstring -> jsstring.

(** C1 (as amended). For every text the parser returns exactly the records
    of the lines that, trimmed, are digits, optional white space, a hyphen,
    optional white space and a non-empty rest, in the order of the lines;
    the other lines leave nothing. A record has the double nearest to the
    integer as its number, the trimmed rest as its name, and as its id the
    string of the number, a hyphen and the normalized name. When every
    integer of the text is at most [2^53 - 1], the number is the integer
    itself and the id starts with its decimal numeral. *)
Theorem parseParticipants_contract text :
  collected (entry toLowerCase) (split newline text)
    (parseParticipants toLowerCase text)
  /\ (forall line integer remainder,
        line_entry line integer remainder ->
        number (entry toLowerCase integer remainder)
        = roundToDouble (digits_value integer)
        /\ ((digits_value integer <= MAX_SAFE_INTEGER)%Z ->
            entry toLowerCase integer remainder
            = entry_as_written toLowerCase integer remainder))
  /\ (safe_integers text ->
      collected (entry_as_written toLowerCase) (split newline text)
        (parseParticipants toLowerCase text))
  /\ (forall ps,
        collected (entry toLowerCase) (split newline text) ps ->
        ps = parseParticipants toLowerCase text)
  /\ Forall (fun p => id p = numberToString (number p) ++ [hyphen]
                             ++ normalized toLowerCase (name p))
            (parseParticipants toLowerCase text).
Proof.
  assert (H : collected (entry toLowerCase) (split newline text)
                (parseParticipants toLowerCase text)).
  { rewrite parseParticipants_lines. apply collected_lines. }
  split; [exact H|]. split; [|split; [|split]].
  - intros line i r He. split; [|now apply (entry_safe toLowerCase line)].
    destruct (line_entry_integer _ _ _ He) as (Hn & Hd & _).
    now apply parseInt_digits.
  - intros Hs. now apply collected_safe.
  - intros ps Hps. exact (collected_unique toLowerCase _ _ _ Hps H).
  - eapply Forall_impl; [|apply parsed_records]. now intros p [_ Hp].
Qed.

(** X17. A draw that runs to its end with nothing in between, the click
    and then the callback on the state that the click left: on a pool with
    a participant at the selected index it appends one winner to the
    history (the participant at that index, the time, the rank: previous
    winner count plus 1) and removes the participant at that index from the
    pool, which shrinks by one; as many such draws as there are
    participants empty the pool. *)
Theorem draw_contract :
  (forall s i now,
      i < length (participants s) ->
      exists p s',
        participants s !! i = Some p
        /\ drawAndReveal i now s = Some s'
        /\ winners s'
           = winners s
             ++ [{| selected := p; drawnAt := now;
                    position := Z.of_nat (length (winners s)) + 1 |}]
        /\ participants s' = delete i (participants s)
        /\ S (length (participants s')) = length (participants s)
        /\ originalParticipants s' = originalParticipants s)
  /\ (forall s draws,
        valid_draws (length (participants s)) draws ->
        length draws = length (participants s) ->
        exists s',
          drawMany draws s = Some s'
          /\ participants s' = []
          /\ length (winners s') = length (winners s) + length draws).
Proof.
  split.
  - intros s i now Hi.
    destruct (lookup_lt_is_Some_2 (participants s) i Hi) as [p Hp].
    pose proof (drawAndReveal_Some s i now p Hp) as E.
    eexists p, _. split; [exact Hp|]. split; [exact E|]. simpl.
    repeat split. rewrite length_delete by eauto. lia.
  - intros s draws Hv Hl.
    destruct (drawMany_valid draws s Hv) as (s' & E & Hp & Hw).
    exists s'. split; [exact E|]. split; [|exact Hw].
    apply length_zero_iff_nil. lia.
Qed.

(** C3. A text whose parse is empty is rejected with the invalid format
    notification; a text in which a number occurs twice among the parsed
    entries is rejected with the duplicate numbers notification, which
    lists each repeated value once; the state is left as it was. *)
Theorem handleParticipantsSubmit_rejects s :
  let parsed := parseParticipants toLowerCase (participantText s) in
  let numbers := List.map number parsed in
  (parsed = [] ->
   handleParticipantsSubmit toLowerCase s = (s, [toast invalidFormatToast]))
  /\ ((exists x, repeated x numbers) ->
      exists values,
        handleParticipantsSubmit toLowerCase s = (s, [toast (duplicateNumbersToast values)])
        /\ NoDup values
        /\ forall x, In x values <-> repeated x numbers).
Proof.
  intros parsed numbers. subst numbers parsed.
  pose proof (parsed_numbers_not_NaN toLowerCase (participantText s)) as Hnan.
  destruct (handleParticipantsSubmit_cases toLowerCase s)
    as [[Hp E]|[(Hp & Hd & E)|(Hp & Hd & E)]]; split.
  - intros _. exact E.
  - intros [x (l1 & l2 & l3 & Hx)]. exfalso. rewrite Hp in Hx.
    now destruct l1.
  - intros Hq. contradiction.
  - intros _. eexists.
    destruct (distinct_spec
                (duplicates_of
                   (List.map number (parseParticipants toLowerCase (participantText s)))))
      as [Hn Hi].
    split; [exact E|]. split; [exact Hn|].
    intros x. rewrite Hi. now apply duplicates_of_In.
  - intros Hq. contradiction.
  - intros [x Hx]. exfalso.
    apply (duplicates_of_In _ x Hnan) in Hx. rewrite Hd in Hx. exact Hx.
Qed.

(** C5. In every state, and whatever draws led to it, the reset puts the
    original snapshot back as the remaining pool and clears the history and
    the winner on display. *)
Theorem resetDraw_restores :
  (forall s,
      participants (fst (resetDraw s)) = originalParticipants s
      /\ originalParticipants (fst (resetDraw s)) = originalParticipants s
      /\ winners (fst (resetDraw s)) = []
      /\ currentWinner (fst (resetDraw s)) = None)
  /\ (forall s draws s',
        drawMany draws s = Some s' ->
        participants (fst (resetDraw s')) = originalParticipants s).
Proof.
  split.
  - intros s. simpl. auto.
  - intros s draws s' H. simpl. now apply drawMany_snapshot in H.
Qed.

(** C7. Invoked on an empty pool, the draw handler signals "No
    Participants" and does nothing else: the state is the same and no
    timer is set. *)
Theorem drawWinner_empty_pool s :
  participants s = [] -> drawWinner s = (s, [toast noParticipantsToast]).
Proof. intros H. unfold drawWinner. now rewrite H. Qed.

(** C8. While a draw is in progress no new draw can be started: the draw
    button is disabled, and a click on it changes neither the state nor
    the pending timers, and notifies nothing. *)
Theorem draw_button_disabled_while_drawing p :
  isDrawing (state p) = true -> step toLowerCase p ClickDraw = p.
Proof.
  intros H. unfold step, drawEnabled, drawDisabled. rewrite H. simpl.
  now rewrite andb_false_r.
Qed.

(** C9. A text whose parse is not empty and has pairwise distinct numbers
    is loaded: the parsed list becomes the pool and the snapshot, the
    history and the winner on display are cleared. *)
Theorem handleParticipantsSubmit_accepts s :
  let parsed := parseParticipants toLowerCase (participantText s) in
  parsed <> [] -> NoDup (List.map number parsed) ->
  handleParticipantsSubmit toLowerCase s
  = ({| participantText := participantText s;
        participants := parsed;
        originalParticipants := parsed;
        winners := [];
        currentWinner := None;
        isDrawing := isDrawing s |},
     [toast (participantsLoadedToast (length parsed))]).
Proof.
  intros parsed Hne Hn. subst parsed.
  pose proof (parsed_numbers_not_NaN toLowerCase (participantText s)) as Hnan.
  destruct (handleParticipantsSubmit_cases toLowerCase s)
    as [[Hp E]|[(Hp & Hd & E)|(Hp & Hd & E)]].
  - contradiction.
  - exfalso. apply Hd. now apply duplicates_of_nil.
  - exact E.
Qed.

(** C10 (as amended). After a load that is accepted the ids of the pool
    are pairwise distinct: an id is the string of the number (its decimal
    numeral, for a number up to [2^53 - 1]), which has no hyphen, then a
    hyphen, and the numbers are pairwise distinct. *)
Theorem loaded_ids_distinct s s' :
  loaded toLowerCase s s' ->
  NoDup (List.map id (participants s'))
  /\ NoDup (List.map number (participants s'))
  /\ Forall (fun p =>
               ~ In hyphen (numberToString (number p))
               /\ (exists rest,
                      id p = numberToString (number p) ++ hyphen :: rest)
               /\ (forall z, number p = Fin z -> (z <= MAX_SAFE_INTEGER)%Z ->
                             numberToString (number p) = decimal z))
            (participants s').
Proof.
  intros H. destruct (loaded_inv toLowerCase s s' H) as (_ & Hn & -> & _).
  pose proof (parsed_records toLowerCase (participantText s)) as Hr.
  set (ps := parseParticipants toLowerCase (participantText s)) in *.
  assert (Hh : forall x, natural_double x ->
                 forallb (fun c => negb (c =? hyphen)%N) (numberToString x) = true)
    by apply numberToString_no_hyphen.
  split; [|split; [exact Hn|]].
  - clear H. induction Hr as [|p ps [Hp Hid] Hr IH]; simpl; [constructor|].
    simpl in Hn. apply list.NoDup_cons in Hn as [Hnp Hn]. constructor; [|auto].
    intros Hin. apply Hnp. clear IH Hn Hnp.
    induction Hr as [|q ps [Hq Hqid] Hr IH]; simpl in *.
    + now apply list.elem_of_nil in Hin.
    + apply list.elem_of_cons in Hin as [E|Hin]; [|right; auto].
      rewrite Hid, Hqid in E. simpl in E.
      destruct (cut_unique (fun c => negb (c =? hyphen)%N) _ _ _ _ _ _ E
                  (Hh _ Hp) (Hh _ Hq) eq_refl eq_refl) as (E' & _).
      apply numberToString_inj in E'; [|assumption..]. rewrite E'. now left.
  - eapply Forall_impl; [|exact Hr]. intros p [Hp Hid]. split; [|split].
    + intros Hin. specialize (Hh _ Hp). rewrite forallb_forall in Hh.
      specialize (Hh _ Hin). now rewrite N.eqb_refl in Hh.
    + eexists. exact Hid.
    + intros z Ez Hz. rewrite Ez in Hp |- *. destruct Hp as [H0 _].
      now apply numberToString_safe.
Qed.

(** X12. The pool invariant holds after any sequence of loads, draws,
    resets and clears in which every operation ends before the next
    starts. *)
Theorem PoolInvariant_operations ops :
  PoolInvariant (fold_left (operate toLowerCase) ops initialState).
Proof.
  assert (H : PoolInvariant initialState).
  { unfold PoolInvariant. simpl. repeat split; reflexivity. }
  revert H. generalize initialState.
  induction ops as [|op ops IH]; intros s H; simpl; [exact H|].
  apply IH. now apply PoolInvariant_operate.
Qed.

(** X1. On the page, the pool invariant holds at every moment of every
    run in which the clear button is not clicked while a draw is in
    progress. *)
Theorem PoolInvariant_pages evs :
  calm toLowerCase initialPage evs ->
  PoolInvariant (state (run toLowerCase initialPage evs)).
Proof.
  assert (H : PageInvariant initialPage).
  { split; [|now left]. unfold PoolInvariant. simpl. repeat split; reflexivity. }
  revert H. generalize initialPage. unfold run.
  induction evs as [|ev evs IH]; intros p H; simpl; [intros _; apply H|].
  intros [Hc Hcalm]. apply IH; [|exact Hcalm].
  now apply PageInvariant_step.
Qed.

(** The clear handler empties the text, the pool, the snapshot and the
    history, and takes the winner off display; it leaves the drawing flag
    as it is, so it gives the initial state when no draw is in progress. *)
Theorem clearAll_wipes s :
  clearAll s
  = ({| participantText := []; participants := []; originalParticipants := [];
        winners := []; currentWinner := None; isDrawing := isDrawing s |}, [])
  /\ (isDrawing s = false -> fst (clearAll s) = initialState).
Proof.
  split; [reflexivity|]. intros H. unfold clearAll. simpl. now rewrite H.
Qed.

End Claims.

(** ** The claims on sample inputs *)

Section Examples.
Import Samples JSStringFacts JSNumberFacts.

Local Abbreviation lc := toLowerCaseLatin.

Ltac distinct_values :=
  repeat (constructor;
          [rewrite ?list.elem_of_cons, list.elem_of_nil; intuition discriminate|]);
  constructor.

(** The parser on two lines. *)
Example parse_twoLines : parseParticipants lc twoLines = [alice; bob].
Proof. reflexivity. Qed.

(** Lines that are not of the form are dropped: letters for the integer, and
    nothing after the hyphen. *)
Example parse_dropped :
  parseParticipants lc
    (lit "abc - Alice" ++ [newline] ++ lit "3 -" ++ [newline] ++ lit "4 - Dan")
  = [{| number := Fin 4; name := lit "Dan"; id := lit "4-dan" |}].
Proof. reflexivity. Qed.

(** Runs of white space in a name. *)
Example parse_spaces :
  parseParticipants lc (lit "  7-  Carol   Ann  ")
  = [{| number := Fin 7; name := lit "Carol   Ann"; id := lit "7-carol-ann" |}].
Proof. reflexivity. Qed.

(** C1, witness: two lines with safe integers. *)
Lemma parseParticipants_contract_witness :
  safe_integers twoLines
  /\ collected (entry_as_written lc) (split newline twoLines)
               (parseParticipants lc twoLines).
Proof.
  assert (Hs : safe_integers twoLines).
  { unfold safe_integers.
    change (split newline twoLines) with [lit "1 - Alice"; lit "2 - Bob"].
    apply Forall_cons; [vm_compute; discriminate|].
    apply Forall_cons; [vm_compute; discriminate|]. apply Forall_nil. }
  split; [exact Hs|].
  exact (proj1 (proj2 (proj2 (parseParticipants_contract lc twoLines))) Hs).
Defined.

(** C1, counterexample: three lines whose record is not the one of the
    integer as written. [2^53 + 1] is read as [2^53]; [10^21] is read as it
    is, and its string is in exponential notation; [10^309] is read as
    [Infinity]. *)
Lemma parseParticipants_integer_not_as_written :
  (parseParticipants lc unsafeLine
   = [{| number := Fin 9007199254740992; name := lit "a";
         id := lit "9007199254740992-a" |}]
   /\ ~ collected (entry_as_written lc) (split newline unsafeLine)
                  (parseParticipants lc unsafeLine))
  /\ (parseParticipants lc hugeLine
      = [{| number := Fin (10 ^ 21); name := lit "a"; id := lit "1e+21-a" |}]
      /\ ~ collected (entry_as_written lc) (split newline hugeLine)
                     (parseParticipants lc hugeLine))
  /\ (parseParticipants lc overflowLine
      = [{| number := PosInfinity; name := lit "a"; id := lit "Infinity-a" |}]
      /\ ~ collected (entry_as_written lc) (split newline overflowLine)
                     (parseParticipants lc overflowLine)).
Proof.
  assert (Hone : forall line p,
            (forall i r, line_entry line i r -> entry_as_written lc i r <> p) ->
            ~ collected (entry_as_written lc) [line] [p]).
  { intros line p Hne H.
    inversion H as [|l ls ps i r He Hc Hl Hps|l ls ps Hno Hc]; subst.
    - now apply (Hne i r He).
    - inversion Hc. }
  split; [|split].
  - assert (Hp : parseParticipants lc unsafeLine
                 = [{| number := Fin 9007199254740992; name := lit "a";
                       id := lit "9007199254740992-a" |}])
      by (vm_compute; reflexivity).
    split; [exact Hp|]. rewrite Hp.
    change (split newline unsafeLine) with [unsafeLine].
    apply Hone. intros i r He E.
    destruct (line_entry_integer _ _ _ He) as (_ & _ & Hi).
    assert (Hv : digits_value i = 9007199254740993%Z)
      by (rewrite <- Hi; vm_compute; reflexivity).
    apply (f_equal number) in E. simpl in E. rewrite Hv in E. discriminate.
  - assert (Hp : parseParticipants lc hugeLine
                 = [{| number := Fin (10 ^ 21); name := lit "a";
                       id := lit "1e+21-a" |}])
      by (vm_compute; reflexivity).
    split; [exact Hp|]. rewrite Hp.
    change (split newline hugeLine) with [hugeLine].
    apply Hone. intros i r He E.
    destruct (line_entry_integer _ _ _ He) as (_ & _ & Hi).
    assert (Hv : decimal (digits_value i) = lit "1000000000000000000000")
      by (rewrite <- Hi; vm_compute; reflexivity).
    apply (f_equal id) in E. simpl in E. rewrite Hv in E. discriminate.
  - assert (Hp : parseParticipants lc overflowLine
                 = [{| number := PosInfinity; name := lit "a";
                       id := lit "Infinity-a" |}])
      by (vm_compute; reflexivity).
    split; [exact Hp|]. rewrite Hp.
    assert (Hs : split newline overflowLine = [overflowLine])
      by (vm_compute; reflexivity).
    rewrite Hs. apply Hone. intros i r He E.
    apply (f_equal number) in E. discriminate.
Qed.

(** X17, witness: Bob is drawn from Alice and Bob; then two draws empty
    the pool. *)
Lemma draw_contract_witness :
  (exists p s',
      participants loadedState !! 1%nat = Some p
      /\ drawAndReveal 1 1000%Z loadedState = Some s'
      /\ winners s'
         = winners loadedState
           ++ [{| selected := p; drawnAt := 1000%Z;
                  position := Z.of_nat (length (winners loadedState)) + 1 |}]
      /\ participants s' = delete 1%nat (participants loadedState)
      /\ S (length (participants s')) = length (participants loadedState)
      /\ originalParticipants s' = originalParticipants loadedState)
  /\ (exists s',
        drawMany [(1%nat, 10%Z); (0%nat, 20%Z)] loadedState = Some s'
        /\ participants s' = []
        /\ length (winners s') = (length (winners loadedState) + 2)%nat).
Proof.
  split.
  - apply (proj1 draw_contract loadedState 1%nat 1000%Z). simpl. lia.
  - apply (proj2 draw_contract loadedState [(1%nat, 10%Z); (0%nat, 20%Z)]).
    + simpl. lia.
    + reflexivity.
Defined.

(** C3, witness: a text without entry, and the number 1 twice. *)
Lemma handleParticipantsSubmit_rejects_witness :
  handleParticipantsSubmit lc (withText (lit "abc") initialState)
  = (withText (lit "abc") initialState, [toast invalidFormatToast])
  /\ exists values,
      handleParticipantsSubmit lc (withText sameNumber initialState)
      = (withText sameNumber initialState, [toast (duplicateNumbersToast values)])
      /\ NoDup values
      /\ forall x, In x values <-> repeated x [Fin 1; Fin 1].
Proof.
  split.
  - apply (proj1 (handleParticipantsSubmit_rejects lc (withText (lit "abc") initialState))).
    reflexivity.
  - apply (proj2 (handleParticipantsSubmit_rejects lc (withText sameNumber initialState))).
    exists (Fin 1), [], [], []. reflexivity.
Defined.

(** The notification of the rejected duplicates. *)
Example duplicate_notification :
  snd (handleParticipantsSubmit lc (withText sameNumber initialState))
  = [toast {| title := lit "Duplicate Numbers";
              description := lit "Found duplicate participant numbers: 1";
              destructive := true |}].
Proof. reflexivity. Qed.

(** C5, witness: a reset after one draw. *)
Lemma resetDraw_restores_witness :
  exists s',
    drawMany [(0%nat, 5%Z)] loadedState = Some s'
    /\ participants s' = [bob]
    /\ participants (fst (resetDraw s')) = [alice; bob].
Proof.
  eexists. split; [reflexivity|]. split; [reflexivity|].
  exact (proj2 resetDraw_restores loadedState [(0%nat, 5%Z)] _ eq_refl).
Defined.

(** C7, witness: the draw handler on the initial state. *)
Lemma drawWinner_empty_pool_witness :
  participants initialState = []
  /\ drawWinner initialState = (initialState, [toast noParticipantsToast]).
Proof.
  split; [reflexivity|]. apply (drawWinner_empty_pool initialState). reflexivity.
Defined.

(** The guard is the button's alone: the handler checks for an empty pool
    only, and on the state of a draw in progress it would set a second
    timer. No event of the page runs it there. *)
Lemma drawWinner_not_guarded :
  let p := run lc initialPage startDraw in
  isDrawing (state p) = true
  /\ length (timers p) = 1%nat
  /\ handle drawWinner p <> p
  /\ length (timers (handle drawWinner p)) = 2%nat.
Proof.
  repeat split. intros H. apply (f_equal (fun p => length (timers p))) in H.
  discriminate.
Qed.

(** C8, witness: a click on the draw button while the draw is in
    progress. *)
Lemma draw_button_disabled_while_drawing_witness :
  isDrawing (state (run lc initialPage startDraw)) = true
  /\ step lc (run lc initialPage startDraw) ClickDraw
     = run lc initialPage startDraw.
Proof.
  split; [reflexivity|].
  apply (draw_button_disabled_while_drawing lc (run lc initialPage startDraw)).
  reflexivity.
Defined.

(** C9, witness: two lines are loaded. *)
Lemma handleParticipantsSubmit_accepts_witness :
  handleParticipantsSubmit lc (withText twoLines initialState)
  = (loadedState, [toast (participantsLoadedToast 2)]).
Proof.
  apply (handleParticipantsSubmit_accepts lc (withText twoLines initialState)).
  - discriminate.
  - change (NoDup [Fin 1; Fin 2]). distinct_values.
Defined.

(** C10, witness: the ids of the two lines. *)
Lemma loaded_ids_distinct_witness :
  loaded lc (withText twoLines initialState) loadedState
  /\ NoDup [lit "1-alice"; lit "2-bob"].
Proof.
  assert (H : loaded lc (withText twoLines initialState) loadedState)
    by (exists 2%nat; reflexivity).
  split; [exact H|].
  exact (proj1 (loaded_ids_distinct lc _ _ H)).
Defined.

(** A draw that is left to end: the invariant holds when the timer has
    fired. *)
Lemma PoolInvariant_pages_witness :
  calm lc initialPage (startDraw ++ [TimerFires 0 1 1000%Z])
  /\ PoolInvariant
       (state (run lc initialPage (startDraw ++ [TimerFires 0 1 1000%Z]))).
Proof.
  assert (H : calm lc initialPage (startDraw ++ [TimerFires 0 1 1000%Z])).
  { simpl. intuition discriminate. }
  split; [exact H|]. exact (PoolInvariant_pages lc _ H).
Defined.

(** C4, the failing run: two lines are loaded, a draw is started, the clear
    button is clicked before the timer fires, then the timer fires. Whichever
    index the callback draws, the pool and the snapshot are empty and the
    history has a winner: the invariant is broken. *)
Lemma clear_while_drawing_breaks_PoolInvariant :
  let after i :=
    state (run lc initialPage (clearWhileDrawing ++ [TimerFires 0 i 1000%Z])) in
  (participants (after 0%nat) = [] /\ originalParticipants (after 0%nat) = []
   /\ List.map selected (winners (after 0%nat)) = [alice]
   /\ ~ PoolInvariant (after 0%nat))
  /\ (participants (after 1%nat) = [] /\ originalParticipants (after 1%nat) = []
      /\ List.map selected (winners (after 1%nat)) = [bob]
      /\ ~ PoolInvariant (after 1%nat)).
Proof.
  split; repeat split; intros (H & _); apply Permutation_length in H;
    discriminate.
Qed.

(** C6, the failing run: the clear button is clicked while a draw is in
    progress. The state is not the initial one (it still says that a draw
    is in progress), the timer is still pending, and when it fires a winner
    enters the history. *)
Lemma clear_while_drawing_not_initial :
  let p := run lc initialPage clearWhileDrawing in
  state p = fst (clearAll (state (run lc initialPage startDraw)))
  /\ isDrawing (state p) = true
  /\ state p <> initialState
  /\ length (timers p) = 1%nat
  /\ List.map selected (winners (state (step lc p (TimerFires 0 0 1000%Z))))
     = [alice].
Proof.
  repeat split. intros H. apply (f_equal isDrawing) in H. discriminate.
Qed.

End Examples.

(** ** More on strings and numbers *)

Module MoreFacts.
Import JSString JSStringFacts LinesFacts JSNumber JSNumberFacts.

Lemma forallb_dropWhile (p q : char -> bool) s :
  forallb p s = true -> forallb p (dropWhile q s) = true.
Proof.
  induction s as [|c s IH]; simpl; [reflexivity|].
  intros H. apply andb_prop in H as [Hc H].
  destruct (q c); [now apply IH | simpl; now rewrite Hc, H].
Qed.

Lemma forallb_trim (p : char -> bool) s :
  forallb p s = true -> forallb p (trim s) = true.
Proof.
  intros H. unfold trim, trimEnd, trimStart.
  rewrite forallb_rev. apply forallb_dropWhile. rewrite forallb_rev.
  now apply forallb_dropWhile.
Qed.

Lemma dropWhile_idem p s : dropWhile p (dropWhile p s) = dropWhile p s.
Proof.
  induction s as [|c s IH]; simpl; [reflexivity|].
  destruct (p c) eqn:E; [exact IH | simpl; now rewrite E].
Qed.

Lemma trimEnd_idem s : trimEnd (trimEnd s) = trimEnd s.
Proof. unfold trimEnd. now rewrite rev_involutive, dropWhile_idem. Qed.

Lemma trimEnd_trim s : trimEnd (trim s) = trim s.
Proof. apply trimEnd_idem. Qed.

(** White space at the end of a string that has more than white space. *)
Lemma trimEnd_app a s : trimEnd s <> [] -> trimEnd (a ++ s) = a ++ trimEnd s.
Proof.
  unfold trimEnd. intros H. rewrite rev_app_distr, dropWhile_app.
  destruct (forallb is_space (rev s)) eqn:E.
  - rewrite (dropWhile_all _ _ E) in H. now elim H.
  - now rewrite rev_app_distr, rev_involutive.
Qed.

Lemma split_sep sep a b :
  split sep (a ++ sep :: b) = split sep a ++ split sep b.
Proof.
  induction a as [|c a IH]; simpl.
  - now rewrite N.eqb_refl.
  - rewrite IH. destruct (c =? sep)%N; [reflexivity|].
    pose proof (split_not_nil sep a) as Hn.
    destruct (split sep a) as [|l ls]; [congruence | reflexivity].
Qed.

Lemma split_one sep s :
  forallb (fun c => negb (c =? sep)%N) s = true -> split sep s = [s].
Proof.
  induction s as [|c s IH]; simpl; [reflexivity|].
  intros H. apply andb_prop in H as [Hc H]. apply negb_true_iff in Hc.
  now rewrite Hc, (IH H).
Qed.

Lemma dot_not_newline s :
  forallb is_dot s = true -> forallb (fun c => negb (c =? newline)%N) s = true.
Proof.
  induction s as [|c s IH]; simpl; [reflexivity|].
  intros H. apply andb_prop in H as [Hc H]. rewrite (IH H), andb_true_r.
  unfold is_dot, is_line_terminator in Hc. unfold newline.
  destruct (c =? 10)%N; [discriminate | reflexivity].
Qed.

Lemma digit_is_dot c : is_digit c = true -> is_dot c = true.
Proof.
  intros H. pose proof (digit_not_space c H) as Hs.
  unfold is_space in Hs. unfold is_dot.
  destruct (is_line_terminator c); [|reflexivity].
  now rewrite !orb_true_r in Hs.
Qed.

(** The value of a numeral is the number it was made from. *)
Lemma digits_value_acc d acc :
  Z.pos (Pos.of_uint_acc d acc)
  = fold_left (fun a c => (10 * a + digit_value c)%Z)
      (lit (NilEmpty.string_of_uint d)) (Z.pos acc).
Proof.
  revert acc. induction d; intros acc; simpl; [reflexivity|..];
    rewrite IHd; f_equal; unfold digit_value; simpl; lia.
Qed.

Lemma digits_value_uint d :
  Z.of_N (Pos.of_uint d) = digits_value (lit (NilEmpty.string_of_uint d)).
Proof.
  unfold digits_value. induction d; simpl; [reflexivity|exact IHd|..];
    rewrite digits_value_acc; reflexivity.
Qed.

Lemma digits_value_decimal z : (0 <= z)%Z -> digits_value (decimal z) = z.
Proof.
  intros H. unfold decimal. rewrite <- digits_value_uint.
  change (Pos.of_uint (N.to_uint (Z.to_N z))) with (N.of_uint (N.to_uint (Z.to_N z))).
  rewrite DecimalN.Unsigned.of_to. lia.
Qed.

Lemma decimal_not_nil z : decimal z <> [].
Proof.
  unfold decimal. destruct (Z.to_N z) as [|q]; [discriminate|].
  intros H. pose proof (digits_value_uint (N.to_uint (N.pos q))) as E.
  rewrite H in E.
  change (Pos.of_uint (N.to_uint (N.pos q))) with (N.of_uint (N.to_uint (N.pos q))) in E.
  rewrite DecimalN.Unsigned.of_to in E. discriminate.
Qed.

(** A number of the parser that prints in plain digits is read back from
    its string. *)
Lemma parseInt_numberToString x :
  natural_double x ->
  forallb is_digit (numberToString x) = true ->
  numberToString x <> [] /\ parseInt (numberToString x) = x.
Proof.
  intros Hx Hd.
  destruct (numberToString_natural x Hx) as [->|(z & v & -> & Hv & Hr & E)];
    [discriminate|].
  assert (Ed : numberToString (Fin z) = decimal v).
  { rewrite E in Hd |- *. unfold render in *.
    destruct (v <? 10 ^ 21)%Z; [reflexivity|].
    destruct (exponential_cases (decimal v)) as [[_ X]|(c & r & _ & X)];
      [exact X|].
    exfalso. rewrite X in Hd. simpl in Hd. apply andb_prop in Hd as [_ Hd].
    rewrite forallb_app in Hd. apply andb_prop in Hd as [_ Hd]. discriminate. }
  rewrite Ed. split; [apply decimal_not_nil|].
  rewrite parseInt_digits; [|apply decimal_not_nil|apply decimal_digits].
  now rewrite digits_value_decimal.
Qed.

End MoreFacts.

(** ** More on the parser *)

Section MoreParserFacts.
Import JSStringFacts RegexFacts LinesFacts JSNumberFacts MoreFacts.

Variable toLowerCase : jsstring -> jsstring.

(** Every record of the parser is the entry of a line. *)
Lemma parsed_entries text :
  Forall (fun p => exists line i r,
              line_entry line i r /\ p = entry toLowerCase i r)
         (parseParticipants toLowerCase text).
Proof.
  rewrite parseParticipants_lines.
  apply (collected_Forall (entry toLowerCase) (split newline text));
    [|apply collected_lines].
  intros line i r He. now exists line, i, r.
Qed.

Lemma parse_line_short line : length (parse_line toLowerCase [] line) <= 1.
Proof.
  destruct (parse_line_entry toLowerCase line) as [(i & r & _ & ->)|[_ ->]];
    simpl; lia.
Qed.

Lemma flat_map_parse_line_short lines :
  length (flat_map (parse_line toLowerCase []) lines) <= length lines.
Proof.
  induction lines as [|l lines IH]; simpl; [lia|].
  rewrite length_app. pose proof (parse_line_short l). lia.
Qed.

(** The name of an entry: not empty, trimmed, without line terminator. *)
Lemma entry_name line i r :
  line_entry line i r ->
  trim r <> [] /\ trim (trim r) = trim r /\ trimEnd (trim r) = trim r
  /\ forallb is_dot (trim r) = true.
Proof.
  intros (ws1 & ws2 & _ & _ & _ & _ & _ & Hdot & _ & Hr).
  repeat split; auto using trim_idem, trimEnd_trim, forallb_trim.
Qed.

(** The line of an entry whose number prints in plain digits is parsed into
    that entry. *)
Lemma entryLine_parsed line i r :
  line_entry line i r ->
  plainNumber (entry toLowerCase i r) ->
  parseParticipants toLowerCase (entryLine (entry toLowerCase i r))
  = [entry toLowerCase i r].
Proof.
  intros He Hplain.
  destruct (line_entry_integer _ _ _ He) as (Hi & Hid & _).
  pose proof (parseInt_natural i Hi Hid) as Hnat.
  destruct (entry_name _ _ _ He) as (Hne & Htt & Hte & Hdot).
  unfold plainNumber in Hplain. unfold entryLine. simpl in *.
  set (x := parseInt i) in *. set (nm := trim r) in *.
  set (ds := numberToString x) in *.
  destruct (parseInt_numberToString x Hnat Hplain) as [Hds Hback].
  fold ds in Hds, Hback.
  pose (l := ds ++ [32%N] ++ hyphen :: [32%N] ++ nm).
  change (parseParticipants toLowerCase l = [entry toLowerCase i r]).
  assert (Hshape : Regex.shape l ds [32%N] [32%N] nm) by (repeat split; auto).
  assert (Hnl : forallb (fun c => negb (c =? newline)%N) l = true).
  { apply dot_not_newline. unfold l. rewrite forallb_app.
    rewrite (digits_without is_dot ds digit_is_dot Hplain). simpl. exact Hdot. }
  assert (Htrim : trim l = l).
  { unfold trim.
    assert (Hs : trimStart l = l).
    { unfold l, trimStart. destruct ds as [|c ds']; [congruence|].
      simpl in Hplain. apply andb_prop in Hplain as [Hc _]. simpl.
      now rewrite (digit_not_space c Hc). }
    rewrite Hs. unfold l.
    change (ds ++ [32%N] ++ hyphen :: [32%N] ++ nm)
      with (ds ++ [32%N; hyphen; 32%N] ++ nm).
    rewrite app_assoc, trimEnd_app; rewrite Hte; [reflexivity | exact Hne]. }
  rewrite parseParticipants_lines, (split_one newline l Hnl). simpl.
  rewrite app_nil_r. unfold parse_line. rewrite Htrim.
  destruct (Regex.match_line l) as [[ds' nm']|] eqn:M.
  - destruct (match_line_Some _ _ _ M) as (ws1' & ws2' & Hs').
    destruct (shape_unique _ _ _ _ _ _ _ _ _ Hshape Hs') as [<- Eq].
    pose proof Hs' as (_ & _ & _ & _ & Hw2 & _).
    assert (Hnm : trim nm' = nm).
    { rewrite <- (trim_spaces_l ws2' nm' Hw2), <- Eq.
      rewrite (trim_spaces_l [32%N] nm eq_refl). exact Htt. }
    rewrite Hback, Hnm, (natural_not_NaN x Hnat).
    destruct nm as [|c nm0] eqn:En; [congruence|]. simpl.
    unfold entry, normalized. fold x. fold nm. now rewrite En.
  - exfalso. exact (match_line_None _ M _ _ _ _ Hshape).
Qed.

Lemma entryLines_parsed ps :
  Forall (fun p => (exists line i r,
                      line_entry line i r /\ p = entry toLowerCase i r)
                   /\ plainNumber p) ps ->
  parseParticipants toLowerCase (entryLines ps) = ps.
Proof.
  unfold entryLines. induction 1 as [|p ps [(line & i & r & He & ->) Hp] Hps IH].
  - reflexivity.
  - pose proof (entryLine_parsed line i r He Hp) as E.
    destruct ps as [|q ps]; [exact E|].
    change (join [newline] (List.map entryLine (entry toLowerCase i r :: q :: ps)))
      with (entryLine (entry toLowerCase i r)
            ++ newline :: join [newline] (List.map entryLine (q :: ps))).
    rewrite !parseParticipants_lines, split_sep, flat_map_app.
    rewrite <- !parseParticipants_lines. now rewrite E, IH.
Qed.

End MoreParserFacts.

(** ** More on the handlers and the page *)

Section MoreHandlerFacts.
Import JSStringFacts JSNumberFacts JSArrayFacts.

Variable toLowerCase : jsstring -> jsstring.

(** Distinct numbers make distinct ids. *)
Lemma parsed_ids_NoDup text :
  NoDup (List.map number (parseParticipants toLowerCase text)) ->
  NoDup (List.map id (parseParticipants toLowerCase text)).
Proof.
  pose proof (parsed_records toLowerCase text) as Hr.
  induction Hr as [|p ps [Hp Hid] Hr IH]; simpl; [constructor|].
  intros Hn. apply list.NoDup_cons in Hn as [Hnp Hn]. constructor; [|auto].
  intros Hin. apply Hnp. clear IH Hn Hnp.
  induction Hr as [|q ps [Hq Hqid] Hr IH]; simpl in *.
  - now apply list.elem_of_nil in Hin.
  - apply list.elem_of_cons in Hin as [E|Hin]; [|right; auto].
    rewrite Hid, Hqid in E. simpl in E.
    destruct (cut_unique (fun c => negb (c =? hyphen)%N) _ _ _ _ _ _ E
                (numberToString_no_hyphen _ Hp) (numberToString_no_hyphen _ Hq)
                eq_refl eq_refl) as (E' & _).
    apply numberToString_inj in E'; [|assumption..]. rewrite E'. now left.
Qed.

(** A load leaves the state as it is, or leaves [loadedFrom]; it notifies
    once and sets no timer. *)
Lemma submit_outcome s :
  exists t,
    handleParticipantsSubmit toLowerCase s = (s, [toast t])
    \/ (handleParticipantsSubmit toLowerCase s
        = (loadedFrom toLowerCase s, [toast t])
        /\ loaded toLowerCase s (loadedFrom toLowerCase s)).
Proof.
  destruct (handleParticipantsSubmit_cases toLowerCase s)
    as [[_ E]|[(_ & _ & E)|(_ & _ & E)]]; eexists.
  - left. exact E.
  - left. exact E.
  - right. split; [exact E|]. eexists. exact E.
Qed.

Lemma loaded_loadedFrom s s' :
  loaded toLowerCase s s' -> s' = loadedFrom toLowerCase s.
Proof.
  intros [count H].
  pose (flag := fun r : State * list Effect =>
                  match snd r with [toast t] => destructive t | _ => false end).
  destruct (handleParticipantsSubmit_cases toLowerCase s)
    as [[_ E]|[(_ & _ & E)|(_ & _ & E)]]; rewrite E in H.
  - apply (f_equal flag) in H. discriminate.
  - apply (f_equal flag) in H. discriminate.
  - apply (f_equal fst) in H. simpl in H. now subst s'.
Qed.

Lemma handle_toast h p s' t :
  h (state p) = (s', [toast t]) ->
  handle h p = {| state := s'; timers := timers p; toasts := toasts p ++ [t] |}.
Proof. intros E. unfold handle. now rewrite E. Qed.

(** *** Draws *)

Lemma drawMany_keeps draws s s' :
  drawMany draws s = Some s' ->
  participantText s' = participantText s
  /\ originalParticipants s' = originalParticipants s
  /\ (isDrawing s = false -> isDrawing s' = false).
Proof.
  revert s. induction draws as [|[i now] draws IH]; intros s; simpl.
  - intros [= <-]. auto.
  - destruct (participants s !! i) as [q|] eqn:Eq.
    + rewrite (drawAndReveal_Some s i now q Eq). intros H.
      destruct (IH _ H) as (Ht & Ho & Hd). simpl in *. auto.
    + now rewrite (drawAndReveal_None s i now Eq).
Qed.

(** *** The page *)

Lemma run_app p evs1 evs2 :
  run toLowerCase p (evs1 ++ evs2)
  = run toLowerCase (run toLowerCase p evs1) evs2.
Proof. unfold run. apply fold_left_app. Qed.

Lemma calm_app p evs1 evs2 :
  calm toLowerCase p (evs1 ++ evs2)
  <-> calm toLowerCase p evs1
      /\ calm toLowerCase (run toLowerCase p evs1) evs2.
Proof.
  revert p. induction evs1 as [|ev evs1 IH]; intros p; simpl; [tauto|].
  rewrite IH. unfold run. simpl. tauto.
Qed.

Lemma PageInvariant_initial : PageInvariant initialPage.
Proof.
  split; [|now left]. unfold PoolInvariant. simpl. repeat split; reflexivity.
Qed.

Lemma PageInvariant_run p evs :
  PageInvariant p -> calm toLowerCase p evs ->
  PageInvariant (run toLowerCase p evs).
Proof.
  revert p. unfold run. induction evs as [|ev evs IH]; intros p H; simpl;
    [intros _; exact H|].
  intros [Hc Hcalm]. apply IH; [|exact Hcalm].
  now apply PageInvariant_step.
Qed.

(** What an event does to the snapshot. *)
Lemma step_snapshot_cases p ev :
  originalParticipants (state (step toLowerCase p ev))
  = originalParticipants (state p)
  \/ (ev = ClickLoad
      /\ loaded toLowerCase (state p) (state (step toLowerCase p ev)))
  \/ (ev = ClickClear
      /\ originalParticipants (state (step toLowerCase p ev)) = []).
Proof.
  destruct ev as [value| | | | |n i now]; unfold step.
  - destruct (inputCardShown (state p)); now left.
  - destruct (loadEnabled (state p)); [|now left].
    destruct (submit_outcome (state p)) as [t [E|[E Hl]]];
      rewrite (handle_toast _ _ _ _ E); simpl; [now left|].
    right. left. auto.
  - destruct (drawEnabled (state p)); [|now left].
    unfold handle, drawWinner.
    destruct (length (participants (state p)) =? 0)%nat; now left.
  - destruct (resetEnabled (state p)); now left.
  - right. right. auto.
  - destruct (timers p !! n) as [cl|]; [|now left].
    unfold revealWinner.
    destruct (seen_participants cl !! i); now left.
Qed.

(** An event keeps the guard of the draw and the winner on display. *)
Lemma guard_step p ev :
  DrawGuard p -> LatestOnDisplay (state p) ->
  DrawGuard (step toLowerCase p ev)
  /\ LatestOnDisplay (state (step toLowerCase p ev)).
Proof.
  intros Hg Hd.
  assert (Hnone : forall s, currentWinner s = None -> LatestOnDisplay s).
  { intros s E. split; [auto|]. intros w Hw. congruence. }
  destruct ev as [value| | | | |n i now]; unfold step.
  - destruct (inputCardShown (state p)); now split.
  - destruct (loadEnabled (state p)); [|now split].
    destruct (submit_outcome (state p)) as [t [E|[E _]]];
      rewrite (handle_toast _ _ _ _ E); [now split|].
    split; [exact Hg | now apply Hnone].
  - destruct (drawEnabled (state p)) eqn:En; [|now split].
    unfold drawEnabled, drawDisabled in En.
    apply andb_prop in En as [_ En].
    apply negb_true_iff, orb_false_iff in En as [Hdr Hl].
    destruct Hg as [[Ht _]|(cl & _ & Hdr')]; [|congruence].
    unfold handle, drawWinner. rewrite Hl. simpl. rewrite Ht. simpl.
    split; [right; eexists; split; reflexivity | now apply Hnone].
  - destruct (resetEnabled (state p)); [|now split].
    unfold handle. simpl. split; [exact Hg | now apply Hnone].
  - unfold handle. simpl. split; [exact Hg | now apply Hnone].
  - destruct Hg as [[Ht Hdr]|(cl & Ht & Hdr)].
    + rewrite Ht, lookup_nil. split; [left; auto | exact Hd].
    + rewrite Ht. destruct n as [|n]; simpl;
        [|split; [right; exists cl; rewrite Ht; auto | exact Hd]].
      unfold revealWinner. destruct (seen_participants cl !! i) as [q|]; simpl.
      * split; [left; auto|]. split; [discriminate|].
        intros w [= <-]. eexists. reflexivity.
      * split; [right; exists cl; rewrite Ht; auto | exact Hd].
Qed.

Lemma guard_run evs :
  DrawGuard (run toLowerCase initialPage evs)
  /\ LatestOnDisplay (state (run toLowerCase initialPage evs)).
Proof.
  assert (H : DrawGuard initialPage /\ LatestOnDisplay (state initialPage)).
  { split; [now left|]. split; [discriminate|]. intros w Hw. discriminate. }
  revert H. generalize initialPage. unfold run.
  induction evs as [|ev evs IH]; intros p H; simpl; [exact H|].
  apply IH. destruct H as [Hg Hd]. now apply guard_step.
Qed.

(** Along a calm run the ids of the snapshot are pairwise distinct. *)
Lemma snapshot_ids_run p evs :
  PageInvariant p ->
  NoDup (List.map id (originalParticipants (state p))) ->
  calm toLowerCase p evs ->
  NoDup (List.map id
           (originalParticipants (state (run toLowerCase p evs)))).
Proof.
  revert p. unfold run. induction evs as [|ev evs IH]; intros p Hp Hn; simpl;
    [intros _; exact Hn|].
  intros [Hc Hcalm]. apply IH; [now apply PageInvariant_step| |exact Hcalm].
  destruct (step_snapshot_cases p ev) as [E|[[_ Hl]|[_ E]]].
  - now rewrite E.
  - destruct (loaded_inv toLowerCase _ _ Hl) as (_ & Hnum & _ & -> & _).
    now apply parsed_ids_NoDup.
  - rewrite E. constructor.
Qed.

End MoreHandlerFacts.

(** * Part III: further properties of the component *)

Section Parser.
Import JSStringFacts LinesFacts JSNumberFacts MoreFacts.

Variable toLowerCase : jsstring -> jsstring.

(** A safe integer prints in plain digits. *)
Lemma safe_plainNumber lines ps :
  collected (entry toLowerCase) lines ps ->
  Forall (fun line => (leading_integer line <= MAX_SAFE_INTEGER)%Z) lines ->
  Forall plainNumber ps.
Proof.
  induction 1 as [|l lines ps i r He Hc IH|l lines ps Hno Hc IH]; intros Hs.
  - constructor.
  - inversion Hs as [|? ? Hl Hls]; subst. constructor; [|auto].
    destruct (line_entry_integer _ _ _ He) as (Hn & Hd & Ht).
    unfold leading_integer in Hl. rewrite Ht in Hl.
    pose proof (digits_value_nonneg i Hd) as H0.
    unfold plainNumber, entry. simpl.
    rewrite parseInt_digits, roundToDouble_safe, numberToString_safe by auto.
    apply decimal_digits.
  - inversion Hs; subst. auto.
Qed.

(** X6. The parser works line by line: the participants of two texts put
    one under the other are those of the first followed by those of the
    second. A line is read by itself, whatever stands around it. *)
Theorem parseParticipants_newline a b :
  parseParticipants toLowerCase (a ++ newline :: b)
  = parseParticipants toLowerCase a ++ parseParticipants toLowerCase b.
Proof.
  rewrite !parseParticipants_lines, split_sep. apply flat_map_app.
Qed.

(** X7. The parser sees a text through its trimmed, non-blank lines only:
    two texts with the same such lines have the same participants, so blank
    lines and white space around a line change nothing. *)
Theorem parseParticipants_content t1 t2 :
  content (split newline t1) = content (split newline t2) ->
  parseParticipants toLowerCase t1 = parseParticipants toLowerCase t2.
Proof.
  intros E. rewrite !parseParticipants_lines.
  rewrite (flat_map_content toLowerCase (split newline t1)), E.
  symmetry. apply flat_map_content.
Qed.

(** X8. What the parser returns is well formed: every name is non-empty,
    trimmed and without line terminator, every number is a natural number
    or [Infinity] (never [NaN], never negative), and there are at most as
    many participants as non-blank lines. *)
Theorem parseParticipants_wellformed text :
  Forall (fun p =>
            name p <> [] /\ trim (name p) = name p
            /\ forallb is_dot (name p) = true
            /\ (number p = PosInfinity
                \/ exists z, number p = Fin z /\ (0 <= z)%Z))
         (parseParticipants toLowerCase text)
  /\ length (parseParticipants toLowerCase text)
     <= length (content (split newline text)).
Proof.
  split.
  - pose proof (parsed_entries toLowerCase text) as H.
    pose proof (parsed_records toLowerCase text) as Hr.
    induction H as [|p ps (line & i & r & He & ->) H IH]; [constructor|].
    inversion Hr as [|? ? [Hn _] Hr']; subst. constructor; [|auto].
    destruct (entry_name line i r He) as (H1 & H2 & _ & H4).
    repeat split; auto. simpl in *.
    destruct (parseInt i) as [| | |z]; simpl in Hn; try tauto.
    right. exists z. tauto.
  - rewrite parseParticipants_lines, flat_map_content.
    apply flat_map_parse_line_short.
Qed.

(** X9. Writing the participants back as lines [number - name] and parsing
    those lines gives the same participants, when every number prints in
    plain digits; it does for every text whose integers are at most
    [Number.MAX_SAFE_INTEGER]. *)
Theorem entryLines_roundtrip text :
  (Forall plainNumber (parseParticipants toLowerCase text) ->
   parseParticipants toLowerCase
     (entryLines (parseParticipants toLowerCase text))
   = parseParticipants toLowerCase text)
  /\ (safe_integers text ->
      Forall plainNumber (parseParticipants toLowerCase text)).
Proof.
  split.
  - intros Hp. apply entryLines_parsed.
    pose proof (parsed_entries toLowerCase text) as He.
    induction He as [|p ps He _ IH]; [constructor|].
    inversion Hp; subst. constructor; auto.
  - intros Hs. rewrite parseParticipants_lines.
    apply (safe_plainNumber (split newline text)); [|exact Hs].
    apply collected_lines.
Qed.

End Parser.

Section Handlers.
Import JSArrayFacts.

Variable toLowerCase : jsstring -> jsstring.

(** X13. A load is accepted exactly when the text gives at least one
    participant and the numbers are pairwise distinct, and then the pool
    and the snapshot are the parsed list, the history is empty and no
    winner is on display; the text and the drawing flag stay. A load that
    is not accepted leaves the state as it is. *)
Theorem loaded_iff s s' :
  (loaded toLowerCase s s'
   <-> parseParticipants toLowerCase (participantText s) <> []
       /\ NoDup (List.map number
                   (parseParticipants toLowerCase (participantText s)))
       /\ s' = loadedFrom toLowerCase s)
  /\ (~ loaded toLowerCase s (fst (handleParticipantsSubmit toLowerCase s)) ->
      fst (handleParticipantsSubmit toLowerCase s) = s).
Proof.
  split; [split|].
  - intros H. destruct (loaded_inv toLowerCase _ _ H) as (Hne & Hn & _).
    repeat split; auto. now apply loaded_loadedFrom.
  - intros (Hne & Hn & ->).
    apply duplicates_of_nil in Hn; [|apply parsed_numbers_not_NaN].
    destruct (handleParticipantsSubmit_cases toLowerCase s)
      as [[E _]|[(_ & E & _)|(_ & _ & E)]]; [congruence..|].
    eexists. exact E.
  - intros Hno. destruct (submit_outcome toLowerCase s) as [t [E|[E Hl]]].
    + now rewrite E.
    + rewrite E in Hno. simpl in Hno. tauto.
Qed.

(** X11. Loading twice is loading once: a second click on the load button
    with the same text gives the same state and the same notification. *)
Theorem handleParticipantsSubmit_idempotent s :
  handleParticipantsSubmit toLowerCase
    (fst (handleParticipantsSubmit toLowerCase s))
  = handleParticipantsSubmit toLowerCase s.
Proof.
  destruct (handleParticipantsSubmit_cases toLowerCase s)
    as [[_ E]|[(_ & _ & E)|(Hne & Hd & E)]]; rewrite E; simpl fst;
    [exact E..|].
  match goal with |- handleParticipantsSubmit _ ?s1 = _ =>
    destruct (handleParticipantsSubmit_cases toLowerCase s1)
      as [[E1 _]|[(_ & E1 & _)|(_ & _ & E1)]]; simpl in E1
  end; [congruence..|exact E1].
Qed.

(** X10. Reset undoes draws: from a state in which nothing has been drawn
    yet, any number of draws followed by a reset gives that state back,
    whoever was drawn and when. *)
Theorem resetDraw_undoes_draws s draws s' :
  fresh s -> drawMany draws s = Some s' -> fst (resetDraw s') = s.
Proof.
  intros (Hp & Hw & Hc & Hd) H.
  destruct (drawMany_keeps draws s s' H) as (Et & Eo & Ed).
  unfold resetDraw. simpl. rewrite Et, Eo, (Ed Hd).
  destruct s; simpl in *; subst; reflexivity.
Qed.

(** X14. The snapshot changes in two ways only: an accepted load sets it
    to the parsed list, and a click on the clear button empties it. Typing,
    a rejected load, a draw, its reveal and a reset leave it as it is. *)
Theorem snapshot_changes p ev :
  originalParticipants (state (step toLowerCase p ev))
  = originalParticipants (state p)
  \/ (ev = ClickLoad
      /\ loaded toLowerCase (state p) (state (step toLowerCase p ev)))
  \/ (ev = ClickClear
      /\ originalParticipants (state (step toLowerCase p ev)) = []).
Proof. exact (step_snapshot_cases toLowerCase p ev). Qed.

(** X2. Whatever is done on the page, clear during a draw included, at
    most one timer is ever pending, and one is pending exactly when the
    drawing flag is set: the disabled draw button lets no second draw
    start. *)
Theorem one_draw_at_a_time evs :
  DrawGuard (run toLowerCase initialPage evs).
Proof. exact (proj1 (guard_run toLowerCase evs)). Qed.

(** X3. Whatever is done on the page, the winner on display is the last
    one of the history, and no winner is on display while a draw is in
    progress. *)
Theorem currentWinner_latest evs :
  LatestOnDisplay (state (run toLowerCase initialPage evs)).
Proof. exact (proj2 (guard_run toLowerCase evs)). Qed.

(** X4. When the clear button is not clicked during a draw, the ids of
    the remaining participants and of the winners are pairwise distinct at
    every moment: the keys of the history list never collide, and nobody
    is both in the pool and in the history. *)
Theorem ids_distinct evs :
  calm toLowerCase initialPage evs ->
  NoDup (List.map id
           (participants (state (run toLowerCase initialPage evs))
            ++ List.map selected
                 (winners (state (run toLowerCase initialPage evs))))).
Proof.
  intros Hc.
  pose proof (PageInvariant_run toLowerCase _ _ PageInvariant_initial Hc)
    as [(Hperm & _) _].
  rewrite Hperm.
  apply (snapshot_ids_run toLowerCase initialPage evs);
    [apply PageInvariant_initial | constructor | exact Hc].
Qed.

(** X5. A click on the clear button when no draw is in progress gives the
    initial state, with no timer pending, whatever happened before. *)
Theorem clear_when_idle evs :
  calm toLowerCase initialPage (evs ++ [ClickClear]) ->
  state (run toLowerCase initialPage (evs ++ [ClickClear])) = initialState
  /\ timers (run toLowerCase initialPage (evs ++ [ClickClear])) = [].
Proof.
  intros Hc. apply calm_app in Hc as [Hc [Ht _]]. specialize (Ht eq_refl).
  pose proof (PageInvariant_run toLowerCase _ _ PageInvariant_initial Hc)
    as [_ [[_ Hd]|[Ht' _]]]; [|rewrite Ht in Ht'; discriminate].
  rewrite run_app. unfold run at 1 3. simpl. unfold handle. simpl.
  rewrite Hd. auto.
Qed.

End Handlers.

Section Rendering.

Variable toLowerCase : jsstring -> jsstring.

Lemma step_toasts p ev :
  Forall (fun t => title t <> title noParticipantsToast) (toasts p) ->
  Forall (fun t => title t <> title noParticipantsToast)
         (toasts (step toLowerCase p ev)).
Proof.
  intros H.
  assert (Hadd : forall t, title t <> title noParticipantsToast ->
            Forall (fun t => title t <> title noParticipantsToast)
                   (toasts p ++ [t])).
  { intros t Ht. apply Forall_app. split; [exact H|]. now constructor. }
  destruct ev as [value| | | | |n i now]; unfold step.
  - now destruct (inputCardShown (state p)).
  - destruct (loadEnabled (state p)); [|exact H].
    destruct (handleParticipantsSubmit_cases toLowerCase (state p))
      as [[_ E]|[(_ & _ & E)|(_ & _ & E)]];
      rewrite (handle_toast _ _ _ _ E); simpl; apply Hadd; discriminate.
  - destruct (drawEnabled (state p)) eqn:En; [|exact H].
    unfold drawEnabled, drawDisabled in En.
    apply andb_prop in En as [_ En].
    apply negb_true_iff, orb_false_iff in En as [_ Hl].
    unfold handle, drawWinner. rewrite Hl. exact H.
  - destruct (resetEnabled (state p)); [|exact H].
    unfold handle. simpl. apply Hadd. discriminate.
  - exact H.
  - destruct (timers p !! n) as [cl|]; [|exact H].
    unfold revealWinner. destruct (seen_participants cl !! i); [|exact H].
    simpl. apply Hadd. discriminate.
Qed.

(** X15. The notification of the empty pool is never shown: the draw
    button is rendered only when the pool is not empty, so the branch of
    [drawWinner] for the empty pool is never taken on the page. *)
Theorem noParticipantsToast_never_shown evs :
  ~ In noParticipantsToast (toasts (run toLowerCase initialPage evs)).
Proof.
  assert (H : Forall (fun t => title t <> title noParticipantsToast)
                     (toasts (run toLowerCase initialPage evs))).
  { assert (H0 : Forall (fun t => title t <> title noParticipantsToast)
                        (toasts initialPage)) by constructor.
    revert H0. generalize initialPage. unfold run.
    induction evs as [|ev evs IH]; intros p H; simpl; [exact H|].
    apply IH. now apply step_toasts. }
  intros Hin. rewrite Forall_forall in H. now apply (H _ Hin).
Qed.

(** X16. The draw of the last participant leaves the pool empty, so the
    draw section is not rendered any more: the winner just drawn is in
    [currentWinner] but its card is not shown, and neither the reset nor
    the draw button can be clicked; the input card is back. *)
Theorem last_draw_hides_winner s i now s' :
  length (participants s) = 1 ->
  drawAndReveal i now s = Some s' ->
  currentWinner s' <> None
  /\ winnerCardShown s' = false
  /\ resetEnabled s' = false
  /\ drawEnabled s' = false
  /\ inputCardShown s' = true.
Proof.
  intros Hl H.
  destruct (participants s !! i) as [q|] eqn:Eq.
  - rewrite (drawAndReveal_Some s i now q Eq) in H. injection H as <-.
    assert (E : delete i (participants s) = []).
    { apply length_zero_iff_nil. rewrite length_delete by eauto. lia. }
    unfold winnerCardShown, resetEnabled, drawEnabled, drawSectionShown,
      inputCardShown. simpl. rewrite E. simpl. repeat split. discriminate.
  - now rewrite (drawAndReveal_None s i now Eq) in H.
Qed.

(** X18. On a page with no timer pending and no draw in progress, a click
    on the draw button followed by its timer firing is one draw run to its
    end: the state is the one that the click and the callback give with
    nothing in between, and no timer is left. *)
Theorem click_then_reveal p i now :
  timers p = [] -> isDrawing (state p) = false ->
  i < length (participants (state p)) ->
  exists s',
    drawAndReveal i now (state p) = Some s'
    /\ state (step toLowerCase (step toLowerCase p ClickDraw)
                   (TimerFires 0 i now)) = s'
    /\ timers (step toLowerCase (step toLowerCase p ClickDraw)
                    (TimerFires 0 i now)) = [].
Proof.
  intros Ht Hd Hi.
  destruct (lookup_lt_is_Some_2 (participants (state p)) i Hi) as [q Hq].
  rewrite (drawAndReveal_Some _ i now q Hq). eexists. split; [reflexivity|].
  assert (Hl : (length (participants (state p)) =? 0)%nat = false)
    by (apply Nat.eqb_neq; lia).
  assert (Hs : (0 <? length (participants (state p)))%nat = true)
    by (apply Nat.ltb_lt; lia).
  unfold step at 2 4, drawEnabled, drawSectionShown, drawDisabled.
  rewrite Hs, Hd, Hl. simpl. unfold handle, drawWinner. rewrite Hl. simpl.
  rewrite Ht. simpl. unfold revealWinner. simpl. rewrite Hq. simpl.
  now rewrite JSArrayFacts.filter_indexed_delete.
Qed.

End Rendering.

(** ** On sample inputs *)

Section MoreExamples.
Import Samples.

Local Abbreviation lc := toLowerCaseLatin.

(** X7, on a text with white space around a line and a blank line. *)
Lemma parseParticipants_content_witness :
  content (split newline (lit "  1 - Alice  " ++ [newline; newline]
                          ++ lit "2 - Bob" ++ [newline]))
  = content (split newline twoLines)
  /\ parseParticipants lc (lit "  1 - Alice  " ++ [newline; newline]
                           ++ lit "2 - Bob" ++ [newline])
     = parseParticipants lc twoLines.
Proof.
  split; [reflexivity|].
  exact (parseParticipants_content lc _ twoLines eq_refl).
Defined.

(** X9, on two lines. *)
Lemma entryLines_roundtrip_witness :
  Forall plainNumber (parseParticipants lc twoLines)
  /\ parseParticipants lc (entryLines (parseParticipants lc twoLines))
     = parseParticipants lc twoLines.
Proof.
  assert (H : Forall plainNumber (parseParticipants lc twoLines)).
  { repeat constructor. }
  split; [exact H|]. exact (proj1 (entryLines_roundtrip lc twoLines) H).
Defined.

(** The round trip needs its hypothesis: [10^21] is written back as
    [1e+21 - a], which is not a line of the format. *)
Example entryLines_exponential :
  entryLines (parseParticipants lc hugeLine) = lit "1e+21 - a"
  /\ parseParticipants lc (entryLines (parseParticipants lc hugeLine)) = [].
Proof. split; reflexivity. Qed.

(** X10, on two draws. *)
Lemma resetDraw_undoes_draws_witness :
  fresh loadedState
  /\ exists s',
       drawMany [(1%nat, 1000%Z); (0%nat, 2000%Z)] loadedState = Some s'
       /\ fst (resetDraw s') = loadedState.
Proof.
  assert (H : fresh loadedState) by (repeat split).
  split; [exact H|]. eexists. split; [reflexivity|].
  exact (resetDraw_undoes_draws loadedState
           [(1%nat, 1000%Z); (0%nat, 2000%Z)] _ H eq_refl).
Defined.

(** X4, on a load, a draw and its reveal. *)
Lemma ids_distinct_witness :
  calm lc initialPage (startDraw ++ [TimerFires 0 1 1000%Z])
  /\ NoDup (List.map id
              (participants
                 (state (run lc initialPage
                           (startDraw ++ [TimerFires 0 1 1000%Z])))
               ++ List.map selected
                    (winners
                       (state (run lc initialPage
                                 (startDraw ++ [TimerFires 0 1 1000%Z])))))).
Proof.
  assert (H : calm lc initialPage (startDraw ++ [TimerFires 0 1 1000%Z])).
  { simpl. intuition discriminate. }
  split; [exact H|]. exact (ids_distinct lc _ H).
Defined.

(** X5, on a clear after a load, a draw and its reveal. *)
Lemma clear_when_idle_witness :
  calm lc initialPage
    ((startDraw ++ [TimerFires 0 1 1000%Z]) ++ [ClickClear])
  /\ state (run lc initialPage
              ((startDraw ++ [TimerFires 0 1 1000%Z]) ++ [ClickClear]))
     = initialState.
Proof.
  assert (H : calm lc initialPage
                ((startDraw ++ [TimerFires 0 1 1000%Z]) ++ [ClickClear])).
  { simpl. intuition (discriminate || reflexivity). }
  split; [exact H|]. exact (proj1 (clear_when_idle lc _ H)).
Defined.

(** X16, on the second of two draws. *)
Lemma last_draw_hides_winner_witness :
  exists s1 s',
    drawAndReveal 1 1000%Z loadedState = Some s1
    /\ length (participants s1) = 1
    /\ drawAndReveal 0 2000%Z s1 = Some s'
    /\ currentWinner s' <> None
    /\ winnerCardShown s' = false
    /\ resetEnabled s' = false
    /\ drawEnabled s' = false
    /\ inputCardShown s' = true.
Proof.
  exists {| participantText := twoLines; participants := [alice];
            originalParticipants := [alice; bob];
            winners := [{| selected := bob; drawnAt := 1000%Z; position := 1 |}];
            currentWinner :=
              Some {| selected := bob; drawnAt := 1000%Z; position := 1 |};
            isDrawing := false |}.
  eexists. split; [reflexivity|]. split; [reflexivity|].
  split; [reflexivity|].
  apply (last_draw_hides_winner
           {| participantText := twoLines; participants := [alice];
              originalParticipants := [alice; bob];
              winners := [{| selected := bob; drawnAt := 1000%Z;
                             position := 1 |}];
              currentWinner :=
                Some {| selected := bob; drawnAt := 1000%Z; position := 1 |};
              isDrawing := false |} 0 2000%Z); reflexivity.
Defined.

(** X18, on a load and a draw. *)
Lemma click_then_reveal_witness :
  exists s',
    drawAndReveal 1 1000%Z loadedState = Some s'
    /\ state (run lc initialPage (startDraw ++ [TimerFires 0 1 1000%Z])) = s'.
Proof.
  destruct (click_then_reveal lc
              (run lc initialPage [TypeText twoLines; ClickLoad]) 1 1000%Z
              eq_refl eq_refl (le_n 2)) as (s' & E & Es & _).
  exists s'. split; [exact E | exact Es].
Defined.

(** C2, the failing run: two lines are loaded and a draw is started; before
    the timer fires the clear button is clicked and three other lines are
    loaded. The callback then draws from the pool it has seen, Alice and
    Bob, and removes by index from the pool as it is now: with index 1 the
    winner is Bob, who is not in the pool, and Fay leaves the pool without
    being drawn. With the clear alone, Bob is drawn from an empty pool. *)
Lemma clear_while_drawing_draws_stale :
  let before := run lc initialPage clearAndReload in
  let after := step lc before (TimerFires 0 1 1000%Z) in
  let cleared := run lc initialPage clearWhileDrawing in
  (participants (state before) = [eve; fay; gus]
   /\ winners (state before) = []
   /\ winners (state after)
      = [{| selected := bob; drawnAt := 1000%Z; position := 1 |}]
   /\ participants (state after) = [eve; gus])
  /\ (participants (state cleared) = []
      /\ winners (state (step lc cleared (TimerFires 0 1 1000%Z)))
         = [{| selected := bob; drawnAt := 1000%Z; position := 1 |}]
      /\ participants (state (step lc cleared (TimerFires 0 1 1000%Z))) = []).
Proof. repeat split. Qed.

(** C10, counterexample: two loads that are accepted and whose id does not
    begin with the decimal number. [10^21] has the id [1e+21-a], and
    [Infinity] has no decimal numeral. *)
Lemma loaded_id_not_decimal :
  let huge :=
    {| number := Fin (10 ^ 21); name := lit "a"; id := lit "1e+21-a" |} in
  let infinite :=
    {| number := PosInfinity; name := lit "a"; id := lit "Infinity-a" |} in
  (loaded lc (withText hugeLine initialState)
          (loadedFrom lc (withText hugeLine initialState))
   /\ participants (loadedFrom lc (withText hugeLine initialState)) = [huge]
   /\ ~ exists rest, id huge = decimal (10 ^ 21) ++ hyphen :: rest)
  /\ (loaded lc (withText overflowLine initialState)
             (loadedFrom lc (withText overflowLine initialState))
      /\ participants (loadedFrom lc (withText overflowLine initialState))
         = [infinite]
      /\ forall z, ~ exists rest, id infinite = decimal z ++ hyphen :: rest).
Proof.
  split; (split; [exists 1%nat; reflexivity|]); (split; [reflexivity|]).
  - intros [rest E]. vm_compute in E. discriminate.
  - intros z [rest E].
    pose proof (JSNumberFacts.decimal_digits z) as D.
    pose proof (MoreFacts.decimal_not_nil z) as N.
    destruct (decimal z) as [|c ds]; [congruence|].
    simpl in D. apply andb_prop in D as [D _].
    injection E as <- _. discriminate.
Qed.

End MoreExamples.
